(** * zypper_repository: reconciliation of one zypper repository entry

    A shallow embedding of [packaging/os/zypper_repository.py].  The module
    talks to the outside world only through [module.run_command]; the
    embedding threads the list of commands executed so far through a small
    state-and-abort monad, so that statements about "which commands were
    run, and in which order" are statements about that list. *)

From Stdlib Require Import ZArith Ascii String.
From stdpp Require Import gmap strings list fin_maps.

(** ** Python values used by the module *)

(** A module parameter or keyword argument is a [str] or [None]. *)
Definition truthy (v : option string) : bool :=
  match v with
  | Some (String _ _) => true
  | _ => false
  end.

(** [a or b] *)
Definition py_or (a b : option string) : option string :=
  if truthy a then a else b.

(** [(v or "")] *)
Definition or_empty (v : option string) : string :=
  match py_or v (Some "") with
  | Some s => s
  | None => ""
  end.

(** [s.rstrip(c)] for a one-character argument. *)
Fixpoint rstrip (c : ascii) (s : string) : string :=
  match s with
  | "" => ""
  | String a s' =>
      match rstrip c s' with
      | "" => if Ascii.eqb a c then "" else String a ""
      | r => String a r
      end
  end.

(** The strings [rstrip] empties. *)
Fixpoint only_slashes (s : string) : bool :=
  match s with
  | "" => true
  | String a s' => Ascii.eqb a "/" && only_slashes s'
  end.

(** [s.endswith(suffix)] *)
Fixpoint endswith (s suffix : string) : bool :=
  String.eqb s suffix ||
  match s with
  | "" => false
  | String _ s' => endswith s' suffix
  end.

(** [" ".join(l)] *)
Fixpoint join (sep : string) (l : list string) : string :=
  match l with
  | [] => ""
  | [x] => x
  | x :: l' => x +:+ sep +:+ join sep l'
  end.

Definition dquote : string := String (ascii_of_nat 34) "".

(** ** Commands, responses and outcomes *)

(** An argument vector; [modify_repo] appends its [alias] argument as it
    is, so an entry may be [None]. *)
Definition cmd := list (option string).

Record response := { rc : Z; stdout : string; stderr : string }.

(** One [<repo>] element of the document returned by [parseXML]: its
    attributes, and for each [<url>] descendant the [data] of its first
    child ([None] when there is no such child). *)
Record repo_elem := {
  attrs : gmap string string;
  urls : list (option string)
}.

Inductive state := present | absent.

#[global] Instance state_eq_dec : EqDecision state.
Proof. solve_decision. Defined.

Record params := {
  p_repo : option string;
  p_state : state;
  p_name : option string;
  p_description : option string;
  p_disable_gpg_check : bool;
  p_refresh : bool
}.

(** The [msg] of a failure.  The ambiguity message is the format string
    ['More than one repo matched "%s": "%s"'] applied to [(name, repos)];
    it is kept with its two arguments. *)
Inductive message :=
| Msg (s : string)
| MsgMoreThanOne (name : option string) (repos : list (gmap string string)).

(** A fatal abort: either a [module.fail_json] call of this module, with
    the keys it may pass, or the abort of [run_command] under
    [check_rc=True]. *)
Inductive failure :=
| fail_json (msg : message) (zypper_exit_code : option Z)
            (f_stdout f_stderr : option string)
| check_rc_failed (c : cmd) (r : response).

(** The keyword arguments of [module.exit_json]; [name] is only passed by
    [exit_unchanged]. *)
Record exit_args := {
  changed : bool;
  e_repo : option string;
  e_state : state;
  e_name : option (option string)
}.

Inductive exn := ExpatError | IndexError | AttributeError.

Inductive outcome (A : Type) :=
| Ret (a : A)
| Exit (e : exit_args)
| Fail (f : failure)
| Raise (e : exn).
Arguments Ret {A} a.
Arguments Exit {A} e.
Arguments Fail {A} f.
Arguments Raise {A} e.

(** A computation takes the commands executed so far and returns its
    outcome with the commands executed when it stops. *)
Definition M (A : Type) : Type := list cmd → outcome A * list cmd.

Definition ret {A} (a : A) : M A := λ t, (Ret a, t).

(** Sequencing: [exit_json], [fail_json] and an unhandled exception end
    the process, so nothing after them is executed. *)
Definition bind {A B} (m : M A) (f : A → M B) : M B := λ t,
  match m t with
  | (Ret a, t') => f a t'
  | (Exit e, t') => (Exit e, t')
  | (Fail x, t') => (Fail x, t')
  | (Raise e, t') => (Raise e, t')
  end.

Notation "x <- m ;; f" := (bind m (λ x, f))
  (at level 100, m at level 99, f at level 200, right associativity).
Notation "'skip' m ;; f" := (bind m (λ _, f))
  (at level 100, m at level 99, f at level 200, right associativity).

Definition exit_json {A} (e : exit_args) : M A := λ t, (Exit e, t).
Definition fail {A} (f : failure) : M A := λ t, (Fail f, t).
Definition raise {A} (e : exn) : M A := λ t, (Raise e, t).

Definition REPO_OPTS : list string :=
  ["alias"; "name"; "priority"; "enabled"; "autorefresh"; "gpgcheck"].

Definition zypper_bin : option string := Some "/usr/bin/zypper".

(** ** Sample inputs

    The parameters are those of the module's EXAMPLES; the package
    manager answers every command with the same exit code, and the
    parser returns a fixed document. *)

Definition const_zypper (code : Z) : list cmd → cmd → response :=
  λ _ _, {| rc := code; stdout := "<stream/>"; stderr := "" |}.

Definition const_parse (l : list repo_elem) : string → option (list repo_elem) :=
  λ _, Some l.

Definition nvidia_elem : repo_elem :=
  {| attrs := {[ "alias" := "nvidia-repo"; "name" := "nvidia-repo";
                 "enabled" := "1"; "autorefresh" := "1"; "gpgcheck" := "1" ]};
     urls := [Some "ftp://download.nvidia.com/opensuse/12.2/"] |}.

Definition nvidia_entry : gmap string string :=
  {[ "alias" := "nvidia-repo"; "name" := "nvidia-repo"; "priority" := "";
     "enabled" := "1"; "autorefresh" := "1"; "gpgcheck" := "1";
     "url" := "ftp://download.nvidia.com/opensuse/12.2/" ]}.

Definition python_elem : repo_elem :=
  {| attrs := {[ "alias" := "devel_languages_python";
                 "name" := "Python Modules"; "enabled" := "1" ]};
     urls := [Some "http://download.opensuse.org/repositories/devel:/languages:/python/SLE_11_SP3/"] |}.

Definition python_entry : gmap string string :=
  {[ "alias" := "devel_languages_python"; "name" := "Python Modules";
     "priority" := ""; "enabled" := "1"; "autorefresh" := "";
     "gpgcheck" := "";
     "url" := "http://download.opensuse.org/repositories/devel:/languages:/python/SLE_11_SP3/" ]}.

Definition nvidia_present : params :=
  {| p_repo := Some "ftp://download.nvidia.com/opensuse/12.2";
     p_state := present; p_name := Some "nvidia-repo";
     p_description := None; p_disable_gpg_check := false;
     p_refresh := true |}.

Definition nvidia_moved : params :=
  {| p_repo := Some "ftp://download.nvidia.com/opensuse/12.3";
     p_state := present; p_name := Some "nvidia-repo";
     p_description := None; p_disable_gpg_check := false;
     p_refresh := true |}.

Definition python_repo_file : string :=
  "http://download.opensuse.org/repositories/devel:/languages:/python/SLE_11_SP3/devel:languages:python.repo".

Definition python_present : params :=
  {| p_repo := Some python_repo_file;
     p_state := present; p_name := None;
     p_description := None; p_disable_gpg_check := false;
     p_refresh := true |}.

Definition python_named : params :=
  {| p_repo := Some python_repo_file;
     p_state := present; p_name := Some "python";
     p_description := None; p_disable_gpg_check := false;
     p_refresh := true |}.

Definition nvidia_absent : params :=
  {| p_repo := Some "ftp://download.nvidia.com/opensuse/12.2";
     p_state := absent; p_name := Some "nvidia-repo";
     p_description := None; p_disable_gpg_check := false;
     p_refresh := true |}.

(** A package manager whose exit code depends on the subcommand. *)
Definition verb_zypper (lr rr ar : Z) : list cmd → cmd → response :=
  λ _ c, {| rc := if bool_decide (c !! 1 = Some (Some "rr")) then rr
                  else if bool_decide (c !! 1 = Some (Some "ar")) then ar
                  else lr;
            stdout := "<stream/>"; stderr := "" |}.

(** The nvidia entry with signature checks and autorefresh off. *)
Definition nvidia_entry_unchecked : gmap string string :=
  <["gpgcheck" := "0"]> (<["autorefresh" := "0"]> nvidia_entry).



(** Keyword arguments that give both an alias and a name. *)
Definition both_given : gmap string (option string) :=
  {[ "alias" := Some "nvidia"; "name" := Some "NVIDIA Driver" ]}.

Section Host.

(** The package manager: its answer to a command, given the commands that
    were executed before it. *)
Variable zypper : list cmd → cmd → response.

(** [xml.dom.minidom.parseString] followed by
    [getElementsByTagName('repo')]; [None] when the parser raises. *)
Variable parseXML : string → option (list repo_elem).

(** Modelled from the spec: [module.run_command] of the host framework,
    which is not part of this repository's sources.  It executes the
    command and returns [(rc, stdout, stderr)]; in strict-check mode
    ([check_rc=True]) every non-zero exit code is a fatal error. *)
Definition run_command (c : cmd) (check_rc : bool) : M response :=
  λ t, let r := zypper t c in
       if check_rc && negb (rc r =? 0)%Z
       then (Fail (check_rc_failed c r), t ++ [c])
       else (Ret r, t ++ [c]).

(** [repo.getAttribute(o)]: the empty string when the attribute is absent. *)
Definition getAttribute (e : repo_elem) (o : string) : string :=
  default "" (attrs e !! o).

(** The body of the loop over [repo_list]. *)
Definition parse_repo (e : repo_elem) : outcome (gmap string string) :=
  let opts := foldl (λ opts o, <[o := getAttribute e o]> opts) ∅ REPO_OPTS in
  match urls e with
  | [] => Raise IndexError
  | None :: _ => Raise AttributeError
  | Some data :: _ => Ret (<["url" := data]> opts)
  end.

Fixpoint parse_repo_list (l : list repo_elem)
  : outcome (list (gmap string string)) :=
  match l with
  | [] => Ret []
  | e :: l' =>
      match parse_repo e with
      | Ret opts =>
          match parse_repo_list l' with
          | Ret repos => Ret (opts :: repos)
          | other => other
          end
      | Exit x => Exit x
      | Fail x => Fail x
      | Raise x => Raise x
      end
  end.

Definition parse_stdout (out : string) : outcome (list (gmap string string)) :=
  match parseXML out with
  | None => Raise ExpatError
  | Some repo_list => parse_repo_list repo_list
  end.

Definition nonempty (s : string) : option string :=
  if truthy (Some s) then Some s else None.

Definition lr_cmd (ident : string) : cmd :=
  [zypper_bin; Some "-x"; Some "lr"; Some ident].

(** The failure of [_parse_repos]: the dictionary [d] holds
    [zypper_exit_code], and [stderr] and [stdout] when they are not
    empty; [msg] is ['Failed to execute "%s"' % " ".join(cmd)]. *)
Definition query_failure (ident : string) (r : response) : failure :=
  fail_json
    (Msg ("Failed to execute " +:+ dquote
          +:+ join " " ["/usr/bin/zypper"; "-x"; "lr"; ident] +:+ dquote))
    (Some (rc r)) (nonempty (stdout r)) (nonempty (stderr r)).

Definition _parse_repos (ident : string) : M (list (gmap string string)) :=
  let c := lr_cmd ident in
  r <- run_command c false;;
  if (rc r =? 0)%Z then
    λ t, (parse_stdout (stdout r), t)
  else if (rc r =? 6)%Z then
    ret []
  else
    fail (query_failure ident r).

(** [kwargs.get(k, None)] *)
Definition kwargs_get (kwargs : gmap string (option string)) (k : string)
  : option string :=
  match kwargs !! k with
  | Some v => v
  | None => None
  end.

Definition repo_changes (realrepo : gmap string string)
    (repocmp : gmap string (option string)) : bool :=
  if existsb (λ k, bool_decide (realrepo !! k = None))
             (map fst (map_to_list repocmp))
  then true
  else
    existsb (λ kv,
               match repocmp !! kv.1 with
               | Some w =>
                   negb (String.eqb (rstrip "/" (or_empty (Some kv.2)))
                                    (rstrip "/" (or_empty w)))
               | None => false
               end)
            (map_to_list realrepo).

(** The identity token of [repo_exists]. *)
Definition repo_ident (kwargs : gmap string (option string)) : option string :=
  py_or (py_or (kwargs_get kwargs "name") (kwargs_get kwargs "alias"))
        (kwargs_get kwargs "url").

Definition repo_exists (kwargs : gmap string (option string)) : M (bool * bool) :=
  let name := repo_ident kwargs in
  repos <- (if truthy name then _parse_repos (or_empty name) else ret []);;
  match repos with
  | [r] => ret (true, repo_changes r kwargs)
  | [] => ret (false, false)
  | _ => fail (fail_json (MsgMoreThanOne name repos) None None None)
  end.

Definition rr_cmd (repo alias : option string) : cmd :=
  [zypper_bin; Some "rr"] ++ (if truthy alias then [alias] else [repo]).

Definition remove_repo (repo alias : option string) : M bool :=
  let c := rr_cmd repo alias in
  r <- run_command c true;;
  ret (rc r =? 0)%Z.

(** The argument vector built by [modify_repo]; [None] when
    [repo.endswith] is applied to [None]. *)
Definition ar_cmd (repo alias description : option string)
    (disable_gpg_check refresh : bool) : option cmd :=
  let c := [zypper_bin; Some "ar"; Some "--check"; Some "-t"; Some "plaindir"] in
  let c := if truthy description then c ++ [Some "--name"; description] else c in
  let c := if disable_gpg_check then c ++ [Some "--no-gpgcheck"] else c in
  let c := if refresh then c ++ [Some "--refresh"] else c in
  let c := c ++ [repo] in
  match repo with
  | None => None
  | Some r => Some (if negb (endswith r ".repo") then c ++ [alias] else c)
  end.

Definition modify_repo (repo alias description : option string)
    (disable_gpg_check refresh remove_first : bool) : M bool :=
  match ar_cmd repo alias description disable_gpg_check refresh with
  | None => raise AttributeError
  | Some c =>
      skip (if remove_first then remove_repo repo alias else ret false);;
      r <- run_command c false;;
      if (rc r =? 0)%Z then ret true
      else if truthy (Some (stderr r))
           then fail (fail_json (Msg (stderr r)) None None None)
           else fail (fail_json (Msg (stdout r)) None None None)
  end.

Definition is_repo_file (repo : option string) : bool :=
  truthy repo && endswith (or_empty repo) ".repo".

(** The run-time parameter checks at the head of [main]. *)
Definition check_params (p : params) : M unit :=
  let repo := p_repo p in
  let name := p_name p in
  skip (if bool_decide (p_state p = present) && negb (truthy repo)
       then fail (fail_json (Msg "Module option state=present requires repo")
                            None None None)
       else ret tt);;
  skip (if bool_decide (p_state p = absent) && negb (truthy repo)
          && negb (truthy name)
       then fail (fail_json
                    (Msg "Alias or repo parameter required when state=absent")
                    None None None)
       else ret tt);;
  if is_repo_file repo then
    if truthy name
    then fail (fail_json
                 (Msg "Incompatible option: 'name'. Do not use name when adding repo files")
                 None None None)
    else ret tt
  else
    if negb (truthy name) && bool_decide (p_state p = present)
    then fail (fail_json (Msg "Name required when adding non-repo files:")
                         None None None)
    else ret tt.

Definition exit_unchanged {A} (p : params) : M A :=
  exit_json {| changed := false; e_repo := p_repo p; e_state := p_state p;
               e_name := Some (p_name p) |}.

Definition main (p : params) : M unit :=
  let repo := p_repo p in
  let name := p_name p in
  skip check_params p;;
  em <- (if is_repo_file repo || truthy name
        then repo_exists {[ "url" := repo; "alias" := name ]}
        else repo_exists {[ "url" := repo ]});;
  let '(exists_, mod_) := em in
  changed_ <-
    (match p_state p with
    | present =>
        skip (if exists_ && negb mod_ then exit_unchanged p else ret tt);;
        modify_repo repo name (p_description p) (p_disable_gpg_check p)
                    (p_refresh p) mod_
    | absent =>
        skip (if negb exists_ then exit_unchanged p else ret tt);;
        remove_repo repo name
    end);;
  exit_json {| changed := changed_; e_repo := repo; e_state := p_state p;
               e_name := None |}.

(** The keyword arguments [main] gives to [repo_exists]. *)
Definition main_kwargs (p : params) : gmap string (option string) :=
  if is_repo_file (p_repo p) || truthy (p_name p)
  then {[ "url" := p_repo p; "alias" := p_name p ]}
  else {[ "url" := p_repo p ]}.

(** The part of [main] after the parameter checks and [repo_exists]. *)
Definition reconcile (p : params) (em : bool * bool) : M unit :=
  let '(exists_, mod_) := em in
  changed_ <-
    (match p_state p with
    | present =>
        skip (if exists_ && negb mod_ then exit_unchanged p else ret tt);;
        modify_repo (p_repo p) (p_name p) (p_description p)
                    (p_disable_gpg_check p) (p_refresh p) mod_
    | absent =>
        skip (if negb exists_ then exit_unchanged p else ret tt);;
        remove_repo (p_repo p) (p_name p)
    end);;
  exit_json {| changed := changed_; e_repo := p_repo p; e_state := p_state p;
               e_name := None |}.

(** The whole run, from an empty command history. *)
Definition run (p : params) : outcome unit * list cmd := main p [].

(** The parameter combinations rejected by the run-time checks. *)
Definition invalid (p : params) : Prop :=
  (p_state p = present ∧ truthy (p_repo p) = false)
  ∨ (p_state p = absent ∧ truthy (p_repo p) = false
     ∧ truthy (p_name p) = false)
  ∨ (∃ r, p_repo p = Some r ∧ endswith r ".repo" = true
          ∧ truthy (p_name p) = true)
  ∨ ((∀ r, p_repo p = Some r → endswith r ".repo" = false)
     ∧ p_state p = present ∧ truthy (p_name p) = false).

(** The query for [ident], issued after the commands [t], exits with 0
    and its output parses to [repos]. *)
Definition query_returns (t : list cmd) (ident : string)
    (repos : list (gmap string string)) : Prop :=
  rc (zypper t (lr_cmd ident)) = 0%Z
  ∧ parse_stdout (stdout (zypper t (lr_cmd ident))) = Ret repos.

(** [m] executes at most [n] commands. *)
Definition runs_at_most {A} (n : nat) (m : M A) : Prop :=
  ∀ t, ∃ l, (m t).2 = t ++ l ∧ length l ≤ n.

(** Unused by [main]; kept as the source has it.  In spite of its name
    it fails when [rc] is not zero. *)
Definition fail_if_rc_is_null (rc : Z) (stdout stderr : string) : M unit :=
  if negb (rc =? 0)%Z then
    if truthy (Some stderr)
    then fail (fail_json (Msg stderr) None None None)
    else fail (fail_json (Msg stdout) None None None)
  else ret tt.

(** The token a run queries by: the [name] parameter if given, else the
    URI. *)
Definition token (p : params) (ident : string) : Prop :=
  py_or (p_name p) (p_repo p) = Some ident ∧ truthy (Some ident) = true.

(** The result reported by a run that changed something. *)
Definition exit_changed (p : params) : exit_args :=
  {| changed := true; e_repo := p_repo p; e_state := p_state p;
     e_name := None |}.

Definition exit_same (p : params) : exit_args :=
  {| changed := false; e_repo := p_repo p; e_state := p_state p;
     e_name := Some (p_name p) |}.

(** How a command can end a run: [check_rc] aborts a removal, an add
    fails with the text of stderr or stdout. *)
Definition add_failed (o : outcome unit) : Prop :=
  ∃ msg, o = Fail (fail_json (Msg msg) None None None).

(** The shapes of a run: its outcome and the commands it executed. *)
Inductive run_shape (p : params) : outcome unit → list cmd → Prop :=
| shape_rejected msg :
    invalid p →
    run_shape p (Fail (fail_json (Msg msg) None None None)) []
| shape_query_failed ident f :
    ¬ invalid p → token p ident →
    run_shape p (Fail f) [lr_cmd ident]
| shape_query_raised ident e :
    ¬ invalid p → token p ident →
    run_shape p (Raise e) [lr_cmd ident]
| shape_unchanged ident :
    ¬ invalid p → token p ident →
    run_shape p (Exit (exit_same p)) [lr_cmd ident]
| shape_removed ident :
    ¬ invalid p → token p ident → p_state p = absent →
    run_shape p (Exit (exit_changed p))
              [lr_cmd ident; rr_cmd (p_repo p) (p_name p)]
| shape_remove_failed ident r :
    ¬ invalid p → token p ident → rc r ≠ 0%Z →
    run_shape p (Fail (check_rc_failed (rr_cmd (p_repo p) (p_name p)) r))
              [lr_cmd ident; rr_cmd (p_repo p) (p_name p)]
| shape_added ident c o :
    ¬ invalid p → token p ident → p_state p = present →
    ar_cmd (p_repo p) (p_name p) (p_description p)
           (p_disable_gpg_check p) (p_refresh p) = Some c →
    o = Exit (exit_changed p) ∨ add_failed o →
    run_shape p o [lr_cmd ident; c]
| shape_replaced ident c o :
    ¬ invalid p → token p ident → p_state p = present →
    ar_cmd (p_repo p) (p_name p) (p_description p)
           (p_disable_gpg_check p) (p_refresh p) = Some c →
    o = Exit (exit_changed p) ∨ add_failed o →
    run_shape p o [lr_cmd ident; rr_cmd (p_repo p) (p_name p); c].

(** What the add command's response makes of [modify_repo]: success on
    exit code 0, else a failure with stderr, or stdout when stderr is
    empty. *)
Definition add_outcome (r : response) : outcome bool :=
  if (rc r =? 0)%Z then Ret true
  else Fail (fail_json
               (Msg (if truthy (Some (stderr r)) then stderr r else stdout r))
               None None None).

(** The last step of [main]: a returned [changed] is reported with
    [exit_json]. *)
Definition finish (p : params) (o : outcome bool) : outcome unit :=
  match o with
  | Ret b => Exit {| changed := b; e_repo := p_repo p; e_state := p_state p;
                     e_name := None |}
  | Exit e => Exit e
  | Fail f => Fail f
  | Raise e => Raise e
  end.

(** The same repository, state and name with other values for
    description, disable_gpg_check and refresh. *)
Definition with_options (p : params) (d : option string) (g f : bool) : params :=
  {| p_repo := p_repo p; p_state := p_state p; p_name := p_name p;
     p_description := d; p_disable_gpg_check := g; p_refresh := f |}.


(** The arguments of the add command that precede the URI. *)
Definition ar_options (description : option string)
    (disable_gpg_check refresh : bool) : cmd :=
  [zypper_bin; Some "ar"; Some "--check"; Some "-t"; Some "plaindir"]
  ++ (if truthy description then [Some "--name"; description] else [])
  ++ (if disable_gpg_check then [Some "--no-gpgcheck"] else [])
  ++ (if refresh then [Some "--refresh"] else []).

(** ** Unfolding lemmas *)

Lemma bind_Ret {A B} (m : M A) (f : A → M B) t a t' :
  m t = (Ret a, t') → bind m f t = f a t'.
Proof. intros E. unfold bind. now rewrite E. Qed.

Lemma bind_Fail {A B} (m : M A) (f : A → M B) t x t' :
  m t = (Fail x, t') → bind m f t = (Fail x, t').
Proof. intros E. unfold bind. now rewrite E. Qed.

Lemma bind_Exit {A B} (m : M A) (f : A → M B) t x t' :
  m t = (Exit x, t') → bind m f t = (Exit x, t').
Proof. intros E. unfold bind. now rewrite E. Qed.

Lemma bind_Raise {A B} (m : M A) (f : A → M B) t x t' :
  m t = (Raise x, t') → bind m f t = (Raise x, t').
Proof. intros E. unfold bind. now rewrite E. Qed.

Lemma run_command_lax c t :
  run_command c false t = (Ret (zypper t c), t ++ [c]).
Proof. reflexivity. Qed.

Lemma run_command_strict_ok c t :
  rc (zypper t c) = 0%Z →
  run_command c true t = (Ret (zypper t c), t ++ [c]).
Proof. intros E. unfold run_command. now rewrite E. Qed.

Lemma run_command_strict_fail c t :
  rc (zypper t c) ≠ 0%Z →
  run_command c true t = (Fail (check_rc_failed c (zypper t c)), t ++ [c]).
Proof.
  intros E. unfold run_command.
  destruct (Z.eqb_spec (rc (zypper t c)) 0); [contradiction | reflexivity].
Qed.

Lemma _parse_repos_rc0 ident t :
  rc (zypper t (lr_cmd ident)) = 0%Z →
  _parse_repos ident t
  = (parse_stdout (stdout (zypper t (lr_cmd ident))), t ++ [lr_cmd ident]).
Proof.
  intros E. unfold _parse_repos.
  rewrite (bind_Ret _ _ _ _ _ (run_command_lax _ _)). now rewrite E.
Qed.

Lemma _parse_repos_rc6 ident t :
  rc (zypper t (lr_cmd ident)) = 6%Z →
  _parse_repos ident t = (Ret [], t ++ [lr_cmd ident]).
Proof.
  intros E. unfold _parse_repos.
  rewrite (bind_Ret _ _ _ _ _ (run_command_lax _ _)). now rewrite E.
Qed.

Lemma _parse_repos_other ident t :
  rc (zypper t (lr_cmd ident)) ≠ 0%Z →
  rc (zypper t (lr_cmd ident)) ≠ 6%Z →
  _parse_repos ident t
  = (Fail (query_failure ident (zypper t (lr_cmd ident))), t ++ [lr_cmd ident]).
Proof.
  intros E0 E6. unfold _parse_repos.
  rewrite (bind_Ret _ _ _ _ _ (run_command_lax _ _)).
  destruct (Z.eqb_spec (rc (zypper t (lr_cmd ident))) 0); [contradiction |].
  destruct (Z.eqb_spec (rc (zypper t (lr_cmd ident))) 6); [contradiction |].
  reflexivity.
Qed.

(** The parsing loop returns a list or raises; it never calls
    [fail_json] or [exit_json]. *)
Lemma parse_repo_list_shape l :
  (∃ repos, parse_repo_list l = Ret repos) ∨ (∃ e, parse_repo_list l = Raise e).
Proof.
  induction l as [| e l IH]; simpl; [left; eauto |].
  unfold parse_repo. destruct (urls e) as [| [data |] ?]; [right; eauto | | right; eauto].
  destruct IH as [[repos ->] | [x ->]]; [left | right]; eauto.
Qed.

Lemma parse_stdout_shape out :
  (∃ repos, parse_stdout out = Ret repos) ∨ (∃ e, parse_stdout out = Raise e).
Proof.
  unfold parse_stdout. destruct (parseXML out); [apply parse_repo_list_shape |].
  right; eauto.
Qed.

Lemma remove_repo_ok repo alias t :
  rc (zypper t (rr_cmd repo alias)) = 0%Z →
  remove_repo repo alias t = (Ret true, t ++ [rr_cmd repo alias]).
Proof.
  intros E. unfold remove_repo.
  rewrite (bind_Ret _ _ _ _ _ (run_command_strict_ok _ _ E)).
  unfold ret. now rewrite E.
Qed.

Lemma remove_repo_fail repo alias t :
  rc (zypper t (rr_cmd repo alias)) ≠ 0%Z →
  remove_repo repo alias t
  = (Fail (check_rc_failed (rr_cmd repo alias) (zypper t (rr_cmd repo alias))),
     t ++ [rr_cmd repo alias]).
Proof.
  intros E. unfold remove_repo.
  now rewrite (bind_Fail _ _ _ _ _ (run_command_strict_fail _ _ E)).
Qed.

(** ** Claims about the query, the removal and the add command *)






(** C9: the removal runs [zypper rr] with the alias when one is known
    and with the URI otherwise; it returns changed=true exactly when the
    command exits with 0, and every other exit code is the fatal error of
    the strict-check mode of [run_command]. *)
Theorem remove_repo_strict (repo alias : option string) (t : list cmd) :
  let c := rr_cmd repo alias in
  let r := zypper t c in
  (truthy alias = true → c = [zypper_bin; Some "rr"; alias])
  ∧ (truthy alias = false → c = [zypper_bin; Some "rr"; repo])
  ∧ (rc r = 0%Z → remove_repo repo alias t = (Ret true, t ++ [c]))
  ∧ (rc r ≠ 0%Z →
     remove_repo repo alias t = (Fail (check_rc_failed c r), t ++ [c]))
  ∧ (∀ b, (remove_repo repo alias t).1 = Ret b → b = true ∧ rc r = 0%Z).
Proof.
  intros c r. subst c r.
  split; [intros H; unfold rr_cmd; now rewrite H |].
  split; [intros H; unfold rr_cmd; now rewrite H |].
  split; [apply remove_repo_ok |].
  split; [apply remove_repo_fail |].
  intros b Hb.
  destruct (Z.eq_dec (rc (zypper t (rr_cmd repo alias))) 0%Z) as [E | E].
  - rewrite (remove_repo_ok _ _ _ E) in Hb. simpl in Hb. now inversion Hb.
  - rewrite (remove_repo_fail _ _ _ E) in Hb. discriminate.
Qed.

(** The options of the add command, before the URI. *)
Lemma ar_cmd_shape (r : string) (alias description : option string)
    (disable_gpg_check refresh : bool) :
  ∃ opts,
    (∀ r' alias',
        ar_cmd (Some r') alias' description disable_gpg_check refresh
        = Some (opts ++ Some r'
                  :: (if endswith r' ".repo" then [] else [alias'])))
    ∧ opts !! 1 = Some (Some "ar").
Proof.
  unfold ar_cmd.
  eexists. split.
  - intros r' alias'. destruct (endswith r' ".repo"); simpl.
    + reflexivity.
    + now rewrite <- app_assoc.
  - now destruct (truthy description), disable_gpg_check, refresh.
Qed.

Lemma modify_repo_plain r alias description g f c t :
  ar_cmd (Some r) alias description g f = Some c →
  ∃ o, modify_repo (Some r) alias description g f false t = (o, t ++ [c]).
Proof.
  intros E. unfold modify_repo. rewrite E.
  unfold bind, ret, run_command; simpl.
  destruct (rc (zypper t c) =? 0)%Z; [eauto |].
  unfold fail. destruct (stderr (zypper t c)); eauto.
Qed.

Lemma modify_repo_remove_ok r alias description g f c t :
  ar_cmd (Some r) alias description g f = Some c →
  rc (zypper t (rr_cmd (Some r) alias)) = 0%Z →
  ∃ o, modify_repo (Some r) alias description g f true t
       = (o, t ++ [rr_cmd (Some r) alias; c]).
Proof.
  intros E H. unfold modify_repo. rewrite E.
  rewrite (bind_Ret _ _ _ _ _ (remove_repo_ok _ _ _ H)).
  unfold bind, ret, run_command; simpl.
  rewrite <- app_assoc; simpl.
  destruct (rc _ =? 0)%Z; [eauto |].
  unfold fail. destruct (stderr _); eauto.
Qed.

Lemma modify_repo_remove_fail r alias description g f c t :
  ar_cmd (Some r) alias description g f = Some c →
  rc (zypper t (rr_cmd (Some r) alias)) ≠ 0%Z →
  modify_repo (Some r) alias description g f true t
  = (Fail (check_rc_failed (rr_cmd (Some r) alias)
                           (zypper t (rr_cmd (Some r) alias))),
     t ++ [rr_cmd (Some r) alias]).
Proof.
  intros E H. unfold modify_repo. rewrite E.
  now rewrite (bind_Fail _ _ _ _ _ (remove_repo_fail _ _ _ H)).
Qed.

Lemma ar_cmd_options (r : string) (alias description : option string)
    (disable_gpg_check refresh : bool) :
  ar_cmd (Some r) alias description disable_gpg_check refresh
  = Some (ar_options description disable_gpg_check refresh
            ++ Some r :: (if endswith r ".repo" then [] else [alias])).
Proof.
  unfold ar_cmd, ar_options.
  by destruct (truthy description), disable_gpg_check, refresh,
       (endswith r ".repo").
Qed.

(** C8: the add command is the options (which depend on neither the URI
    nor the alias), then the URI, and then the alias if and only if the
    URI does not end in [.repo]: for a URI ending in [.repo] the URI is
    the last argument and the alias is not passed; this vector is the
    command [modify_repo] executes. *)
Theorem add_command_alias_iff_not_repo_file
    (r : string) (alias description : option string)
    (disable_gpg_check refresh : bool) (t : list cmd) :
  let opts := ar_options description disable_gpg_check refresh in
  ∃ c,
    ar_cmd (Some r) alias description disable_gpg_check refresh = Some c
    ∧ (endswith r ".repo" = false ↔ c = opts ++ [Some r; alias])
    ∧ (endswith r ".repo" = true ↔ c = opts ++ [Some r])
    ∧ (modify_repo (Some r) alias description disable_gpg_check refresh
                   false t).2 = t ++ [c].
Proof.
  intros opts.
  pose proof (ar_cmd_options r alias description disable_gpg_check refresh)
    as Hc. fold opts in Hc.
  eexists. split; [exact Hc |].
  assert (Hne : opts ++ [Some r; alias] ≠ opts ++ [Some r]).
  { intros H. apply app_inv_head in H. discriminate. }
  split; [| split].
  - destruct (endswith r ".repo"); split; intros H; done.
  - destruct (endswith r ".repo"); split; intros H; done.
  - destruct (modify_repo_plain r alias description disable_gpg_check
                refresh _ t Hc) as [o ->].
    reflexivity.
Qed.

(** C7: with [remove_first] the first command of [modify_repo] is the
    removal; the add command is executed after it, and only once the
    removal has returned with exit code 0 (a failing removal aborts the
    run before any add). *)
Theorem modify_repo_removes_first
    (r : string) (alias description : option string)
    (disable_gpg_check refresh : bool) (t : list cmd) :
  let rm := rr_cmd (Some r) alias in
  ∃ c o rest,
    ar_cmd (Some r) alias description disable_gpg_check refresh = Some c
    ∧ c ≠ rm
    ∧ modify_repo (Some r) alias description disable_gpg_check refresh true t
      = (o, t ++ rm :: rest)
    ∧ ((rc (zypper t rm) = 0%Z ∧ rest = [c])
       ∨ (rc (zypper t rm) ≠ 0%Z ∧ rest = []
          ∧ o = Fail (check_rc_failed rm (zypper t rm)))).
Proof.
  intros rm. subst rm.
  destruct (ar_cmd_shape r alias description disable_gpg_check refresh)
    as [opts [Hc Hopts]].
  specialize (Hc r alias).
  set (c := opts ++ Some r :: (if endswith r ".repo" then [] else [alias])) in *.
  assert (Hne : c ≠ rr_cmd (Some r) alias).
  { intros H. assert (H1 : c !! 1 = Some (Some "ar")).
    { unfold c. rewrite lookup_app_l; [done |].
      apply lookup_lt_Some in Hopts. done. }
    rewrite H in H1. discriminate. }
  destruct (Z.eq_dec (rc (zypper t (rr_cmd (Some r) alias))) 0%Z) as [E | E].
  - destruct (modify_repo_remove_ok _ _ _ _ _ _ t Hc E) as [o Ho].
    exists c, o, [c]. repeat split; try done. now left.
  - exists c, (Fail (check_rc_failed (rr_cmd (Some r) alias)
                        (zypper t (rr_cmd (Some r) alias)))), [].
    repeat split; try done.
    + now apply (modify_repo_remove_fail _ _ _ _ _ c).
    + right. done.
Qed.

(** ** Parameter checks *)

Lemma or_empty_Some s : or_empty (Some s) = s.
Proof. now destruct s. Qed.

Lemma is_repo_file_Some r : is_repo_file (Some r) = endswith r ".repo".
Proof. now destruct r. Qed.

Ltac refute_invalid :=
  let H := fresh in
  intros [[? ?] | [(? & ? & ?) | [(? & ? & ? & ?) | (H & ? & ?)]]];
  simplify_eq; try congruence;
  try (specialize (H _ eq_refl)); congruence.

Lemma check_params_cases p t :
  (invalid p ∧ ∃ msg, check_params p t
                      = (Fail (fail_json (Msg msg) None None None), t))
  ∨ (¬ invalid p ∧ check_params p t = (Ret tt, t)).
Proof.
  destruct p as [repo st name d g f]. unfold check_params, invalid; simpl.
  destruct repo as [r |].
  - rewrite is_repo_file_Some.
    destruct (endswith r ".repo") eqn:Er.
    + assert (Hr : truthy (Some r) = true) by now destruct r.
      rewrite Hr.
      destruct (truthy name) eqn:En.
      * left. split; [right; right; left; eauto |].
        destruct st; unfold bind, ret, fail; simpl; eauto.
      * right. split; [refute_invalid |].
        destruct st; reflexivity.
    + destruct st, (truthy (Some r)) eqn:Hr, (truthy name) eqn:En;
        unfold bind, ret, fail; simpl.
      * right. split; [refute_invalid | reflexivity].
      * left. split; [| eauto].
        right; right; right. split; [| done]. now intros r' [= <-].
      * left. split; [left; done | eauto].
      * left. split; [left; done | eauto].
      * right. split; [refute_invalid | reflexivity].
      * right. split; [refute_invalid | reflexivity].
      * right. split; [refute_invalid | reflexivity].
      * left. split; [right; left; done | eauto].
  - destruct st, (truthy name) eqn:En;
      unfold bind, ret, fail; simpl.
    + left. split; [left; done | eauto].
    + left. split; [left; done | eauto].
    + right. split; [refute_invalid | reflexivity].
    + left. split; [right; left; done | eauto].
Qed.

Lemma main_unfold p :
  main p = (skip check_params p;;
            em <- repo_exists (main_kwargs p);;
            reconcile p em).
Proof.
  unfold main, main_kwargs, reconcile.
  now destruct (is_repo_file (p_repo p) || truthy (p_name p)).
Qed.

(** C6: each of the four rejected parameter combinations makes the run
    fail with a validation error while the command history is still
    empty, and every other input passes the checks. *)
Theorem validation_precedes_commands (p : params) :
  (invalid p →
   ∃ msg, run p = (Fail (fail_json (Msg msg) None None None), []))
  ∧ (¬ invalid p → check_params p [] = (Ret tt, [])).
Proof.
  destruct (check_params_cases p []) as [[Hi [msg Hm]] | [Hv Hok]].
  - split; [| done]. intros _. exists msg.
    unfold run. rewrite main_unfold.
    now rewrite (bind_Fail _ _ _ _ _ Hm).
  - split; done.
Qed.

(** ** The identity token and the query of [repo_exists] *)

Lemma _parse_repos_trace ident t :
  (_parse_repos ident t).2 = t ++ [lr_cmd ident].
Proof.
  unfold _parse_repos.
  rewrite (bind_Ret _ _ _ _ _ (run_command_lax _ _)).
  destruct (rc _ =? 0)%Z; [reflexivity |].
  destruct (rc _ =? 6)%Z; reflexivity.
Qed.

Lemma repo_exists_no_ident kwargs t :
  truthy (repo_ident kwargs) = false →
  repo_exists kwargs t = (Ret (false, false), t).
Proof. intros H. unfold repo_exists. now rewrite H. Qed.

Lemma repo_exists_trace kwargs t :
  truthy (repo_ident kwargs) = true →
  (repo_exists kwargs t).2 = t ++ [lr_cmd (or_empty (repo_ident kwargs))].
Proof.
  intros H. unfold repo_exists. rewrite H. unfold bind.
  pose proof (_parse_repos_trace (or_empty (repo_ident kwargs)) t) as Ht.
  destruct (_parse_repos (or_empty (repo_ident kwargs)) t) as [[repos | | |] t'];
    simpl in Ht; subst t'; try reflexivity.
  destruct repos as [| r1 [| r2 rest]]; reflexivity.
Qed.

Lemma repo_exists_query kwargs t ident repos :
  repo_ident kwargs = Some ident →
  truthy (Some ident) = true →
  query_returns t ident repos →
  repo_exists kwargs t
  = match repos with
    | [r] => (Ret (true, repo_changes r kwargs), t ++ [lr_cmd ident])
    | [] => (Ret (false, false), t ++ [lr_cmd ident])
    | _ => (Fail (fail_json (MsgMoreThanOne (Some ident) repos) None None None),
            t ++ [lr_cmd ident])
    end.
Proof.
  intros Hi Ht [Hrc Hp]. unfold repo_exists. rewrite Hi, Ht, or_empty_Some.
  unfold bind. rewrite (_parse_repos_rc0 _ _ Hrc), Hp.
  destruct repos as [| r1 [| r2 rest]]; reflexivity.
Qed.

Lemma main_kwargs_ident p :
  repo_ident (main_kwargs p) = py_or (p_name p) (p_repo p).
Proof.
  unfold main_kwargs, repo_ident, kwargs_get.
  destruct (is_repo_file (p_repo p) || truthy (p_name p)) eqn:E.
  - reflexivity.
  - apply orb_false_iff in E as [_ E]. unfold py_or at 3. rewrite E.
    reflexivity.
Qed.

(** C1 (amended): the identity token of [repo_exists] is the [name]
    keyword if it is given, else the [alias] keyword if it is given,
    else the [url] keyword; the query is [zypper -x lr] of that token,
    and no command is run when there is no token.  [main] passes the
    module's [name] parameter as the alias and no [name] keyword, so a
    run identifies the repository by that parameter, else by the URI. *)
Theorem repo_ident_priority (kwargs : gmap string (option string))
    (t : list cmd) :
  let name := kwargs_get kwargs "name" in
  let alias := kwargs_get kwargs "alias" in
  let url := kwargs_get kwargs "url" in
  (truthy name = true → repo_ident kwargs = name)
  ∧ (truthy name = false → truthy alias = true → repo_ident kwargs = alias)
  ∧ (truthy name = false → truthy alias = false → repo_ident kwargs = url)
  ∧ (truthy (repo_ident kwargs) = true →
     (repo_exists kwargs t).2 = t ++ [lr_cmd (or_empty (repo_ident kwargs))])
  ∧ (truthy (repo_ident kwargs) = false →
     repo_exists kwargs t = (Ret (false, false), t))
  ∧ (∀ p, repo_ident (main_kwargs p) = py_or (p_name p) (p_repo p)).
Proof.
  intros name alias url. unfold repo_ident. fold name alias url.
  split; [intros H; unfold py_or; now rewrite !H |].
  split; [intros H1 H2; unfold py_or; now rewrite !H1, !H2 |].
  split; [intros H1 H2; unfold py_or; now rewrite !H1, !H2 |].
  split; [apply repo_exists_trace |].
  split; [apply repo_exists_no_ident | apply main_kwargs_ident].
Qed.

(** ** The difference check *)

Lemma rstrip_empty_iff (s : string) :
  rstrip "/" s = "" ↔ only_slashes s = true.
Proof.
  induction s as [| a s IH]; simpl; [done |].
  destruct (rstrip "/" s) eqn:Er.
  - destruct IH as [IH _]. rewrite (IH eq_refl), andb_true_r.
    destruct (Ascii.eqb a "/"); split; done.
  - destruct (only_slashes s).
    + destruct IH as [_ IH]. discriminate (IH eq_refl).
    + rewrite andb_false_r. split; done.
Qed.

Lemma repo_changes_true_iff (realrepo : gmap string string)
    (repocmp : gmap string (option string)) :
  repo_changes realrepo repocmp = true
  ↔ (∃ k, is_Some (repocmp !! k) ∧ realrepo !! k = None)
    ∨ (∃ k v w, realrepo !! k = Some v ∧ repocmp !! k = Some w
                ∧ rstrip "/" v ≠ rstrip "/" (or_empty w)).
Proof.
  unfold repo_changes. split.
  - destruct (existsb _ (map fst _)) eqn:E1.
    + intros _. left. apply existsb_exists in E1 as (k & Hk & Hn).
      apply bool_decide_eq_true in Hn.
      apply in_map_iff in Hk as ([k' w] & <- & Hin).
      apply list_elem_of_In, elem_of_map_to_list in Hin.
      exists k'. split; [eauto | done].
    + intros E2. right. apply existsb_exists in E2 as ([k v] & Hin & Hne).
      apply list_elem_of_In, elem_of_map_to_list in Hin. simpl in Hne.
      destruct (repocmp !! k) as [w |] eqn:Hw; [| discriminate].
      exists k, v, w. repeat split; try done.
      rewrite or_empty_Some in Hne.
      apply negb_true_iff, String.eqb_neq in Hne. done.
  - intros [(k & [w Hw] & Hn) | (k & v & w & Hv & Hw & Hne)].
    + assert (E : existsb (λ k, bool_decide (realrepo !! k = None))
                    (map fst (map_to_list repocmp)) = true).
      { apply existsb_exists. exists k. split.
        - apply in_map_iff. exists (k, w). split; [done |].
          now apply list_elem_of_In, elem_of_map_to_list.
        - now apply bool_decide_eq_true. }
      now rewrite E.
    + destruct (existsb _ (map fst _)); [done |].
      apply existsb_exists. exists (k, v). split.
      * now apply list_elem_of_In, elem_of_map_to_list.
      * simpl. rewrite Hw, or_empty_Some.
        now apply negb_true_iff, String.eqb_neq.
Qed.

Lemma repo_changes_false_iff (realrepo : gmap string string)
    (repocmp : gmap string (option string)) :
  repo_changes realrepo repocmp = false
  ↔ ∀ k w, repocmp !! k = Some w →
           ∃ v, realrepo !! k = Some v
                ∧ rstrip "/" v = rstrip "/" (or_empty w).
Proof.
  split.
  - intros Hf k w Hw.
    destruct (realrepo !! k) as [v |] eqn:Hv.
    + exists v. split; [done |].
      destruct (decide (rstrip "/" v = rstrip "/" (or_empty w)))
        as [E | E]; [done |].
      assert (repo_changes realrepo repocmp = true) as Ht; [| congruence].
      apply repo_changes_true_iff. right. eauto 10.
    + assert (repo_changes realrepo repocmp = true) as Ht; [| congruence].
      apply repo_changes_true_iff. left. eauto.
  - intros H. apply not_true_is_false. intros Ht.
    apply repo_changes_true_iff in Ht
        as [(k & [w Hw] & Hn) | (k & v & w & Hv & Hw & Hne)].
    + destruct (H k w Hw) as (v & Hv & _). congruence.
    + destruct (H k w Hw) as (v' & Hv' & E). congruence.
Qed.

(** C10: a comparison value [None] is compared as the empty string, so
    an existing entry whose attribute for that key is not empty and not
    all slashes differs; [repo_exists] then reports (exists, differs) =
    (true, true). *)
Theorem none_compared_as_empty (kwargs : gmap string (option string))
    (ident k v : string) (realrepo : gmap string string) (t : list cmd) :
  kwargs !! k = Some None →
  repo_ident kwargs = Some ident →
  truthy (Some ident) = true →
  query_returns t ident [realrepo] →
  realrepo !! k = Some v →
  only_slashes v = false →
  or_empty None = ""
  ∧ repo_changes realrepo kwargs = true
  ∧ repo_exists kwargs t = (Ret (true, true), t ++ [lr_cmd ident]).
Proof.
  intros Hk Hi Ht Hq Hv Hs.
  assert (Hc : repo_changes realrepo kwargs = true).
  { apply repo_changes_true_iff. right. exists k, v, None.
    repeat split; try done. simpl. intros E.
    apply rstrip_empty_iff in E. congruence. }
  split; [reflexivity |]. split; [done |].
  rewrite (repo_exists_query _ _ _ _ Hi Ht Hq). now rewrite Hc.
Qed.

(** ** Reconciliation *)

Lemma reconcile_unchanged p t :
  p_state p = present →
  reconcile p (true, false) t
  = (Exit {| changed := false; e_repo := p_repo p; e_state := present;
             e_name := Some (p_name p) |}, t).
Proof.
  intros H. unfold reconcile, exit_unchanged, exit_json, bind.
  now rewrite !H.
Qed.

(** C2: when the query returns exactly one entry and every supplied
    comparison value equals the entry's attribute after stripping
    trailing slashes on both sides, [repo_exists] returns
    (exists, differs) = (true, false); a run with state=present then exits
    with changed=false and the query is the only command it executed. *)
Theorem matching_entry_is_unchanged (kwargs : gmap string (option string))
    (ident : string) (realrepo : gmap string string) (t : list cmd) :
  repo_ident kwargs = Some ident →
  truthy (Some ident) = true →
  query_returns t ident [realrepo] →
  (∀ k w, kwargs !! k = Some w →
          ∃ v, realrepo !! k = Some v
               ∧ rstrip "/" v = rstrip "/" (or_empty w)) →
  repo_exists kwargs t = (Ret (true, false), t ++ [lr_cmd ident])
  ∧ (∀ p, t = [] → main_kwargs p = kwargs → p_state p = present →
          check_params p [] = (Ret tt, []) →
          run p = (Exit {| changed := false; e_repo := p_repo p;
                           e_state := present;
                           e_name := Some (p_name p) |},
                   [lr_cmd ident])).
Proof.
  intros Hi Ht Hq Hm.
  assert (He : repo_exists kwargs t = (Ret (true, false), t ++ [lr_cmd ident])).
  { rewrite (repo_exists_query _ _ _ _ Hi Ht Hq).
    apply repo_changes_false_iff in Hm. now rewrite Hm. }
  split; [done |].
  intros p -> <- Hs Hc. unfold run. rewrite main_unfold.
  rewrite (bind_Ret _ _ _ _ _ Hc), (bind_Ret _ _ _ _ _ He).
  now apply reconcile_unchanged.
Qed.

(** C4: when the query returns more than one entry, [repo_exists] fails
    with the ambiguity error, whose message carries the token and the
    whole list of matches; the query is then the only command of the
    run: nothing is added or removed. *)
Theorem ambiguous_identity_is_fatal (kwargs : gmap string (option string))
    (ident : string) (r1 r2 : gmap string string)
    (rest : list (gmap string string)) (t : list cmd) :
  repo_ident kwargs = Some ident →
  truthy (Some ident) = true →
  query_returns t ident (r1 :: r2 :: rest) →
  let ambiguous :=
    fail_json (MsgMoreThanOne (Some ident) (r1 :: r2 :: rest)) None None None in
  repo_exists kwargs t = (Fail ambiguous, t ++ [lr_cmd ident])
  ∧ (∀ p, t = [] → main_kwargs p = kwargs →
          (check_params p [] = (Ret tt, [])
           ∧ run p = (Fail ambiguous, [lr_cmd ident]))
          ∨ (∃ f, check_params p [] = (Fail f, [])
                  ∧ run p = (Fail f, []))).
Proof.
  intros Hi Ht Hq ambiguous.
  assert (He : repo_exists kwargs t = (Fail ambiguous, t ++ [lr_cmd ident]))
    by now rewrite (repo_exists_query _ _ _ _ Hi Ht Hq).
  split; [done |].
  intros p -> <-. unfold run. rewrite main_unfold.
  destruct (check_params_cases p []) as [[_ [msg Hm]] | [_ Hok]].
  - right. eexists. split; [exact Hm |].
    now rewrite (bind_Fail _ _ _ _ _ Hm).
  - left. split; [done |].
    now rewrite (bind_Ret _ _ _ _ _ Hok), (bind_Fail _ _ _ _ _ He).
Qed.

(** ** Counting the commands of a run *)

Lemma runs_weaken {A} n n' (m : M A) :
  n ≤ n' → runs_at_most n m → runs_at_most n' m.
Proof. intros Hn H t. destruct (H t) as (l & E & Hl). exists l. split; [done | lia]. Qed.

Lemma runs_pure {A} (o : outcome A) : runs_at_most 0 (λ t, (o, t)).
Proof. intros t. exists []. simpl. now rewrite app_nil_r. Qed.

Lemma runs_bind {A B} n k (m : M A) (f : A → M B) :
  runs_at_most n m → (∀ a, runs_at_most k (f a)) →
  runs_at_most (n + k) (bind m f).
Proof.
  intros Hm Hf t. destruct (Hm t) as (l & E & Hl). unfold bind.
  destruct (m t) as [[a | x | x | x] t']; simpl in E; subst t';
    try (exists l; split; [reflexivity | lia]).
  destruct (Hf a (t ++ l)) as (l' & E' & Hl').
  exists (l ++ l'). rewrite E', app_assoc, length_app. split; [done | lia].
Qed.

Lemma runs_if {A} n (b : bool) (m1 m2 : M A) :
  runs_at_most n m1 → runs_at_most n m2 →
  runs_at_most n (if b then m1 else m2).
Proof. now destruct b. Qed.

Lemma runs_run_command c b : runs_at_most 1 (run_command c b).
Proof.
  intros t. exists [c]. unfold run_command.
  destruct (b && _); split; done.
Qed.

Lemma runs__parse_repos ident : runs_at_most 1 (_parse_repos ident).
Proof.
  intros t. exists [lr_cmd ident]. split; [apply _parse_repos_trace | done].
Qed.

Lemma runs_repo_exists kwargs : runs_at_most 1 (repo_exists kwargs).
Proof.
  unfold repo_exists. apply (runs_bind 1 0).
  - apply runs_if; [apply runs__parse_repos |].
    apply (runs_weaken 0); [lia | apply runs_pure].
  - intros [| r1 [| r2 rest]]; apply runs_pure.
Qed.

Lemma runs_remove_repo repo alias : runs_at_most 1 (remove_repo repo alias).
Proof.
  unfold remove_repo. apply (runs_bind 1 0); [apply runs_run_command |].
  intros r. apply runs_pure.
Qed.

Lemma runs_modify_repo repo alias d g f rf :
  runs_at_most 2 (modify_repo repo alias d g f rf).
Proof.
  unfold modify_repo. destruct (ar_cmd repo alias d g f) as [c |].
  - apply (runs_bind 1 1).
    + apply runs_if; [apply runs_remove_repo |].
      apply (runs_weaken 0); [lia | apply runs_pure].
    + intros _. apply (runs_bind 1 0); [apply runs_run_command |].
      intros r. repeat apply runs_if; apply runs_pure.
  - apply (runs_weaken 0); [lia | apply runs_pure].
Qed.

Lemma runs_check_params p : runs_at_most 0 (check_params p).
Proof.
  unfold check_params.
  apply (runs_bind 0 0); [apply runs_if; apply runs_pure |]. intros _.
  apply (runs_bind 0 0); [apply runs_if; apply runs_pure |]. intros _.
  repeat apply runs_if; apply runs_pure.
Qed.

Lemma runs_reconcile p em : runs_at_most 2 (reconcile p em).
Proof.
  destruct em as [e m]. unfold reconcile.
  apply (runs_bind 2 0); [| intros c; apply runs_pure].
  destruct (p_state p).
  - apply (runs_bind 0 2); [apply runs_if; apply runs_pure |].
    intros _. apply runs_modify_repo.
  - apply (runs_bind 0 2); [apply runs_if; apply runs_pure |].
    intros _. apply (runs_weaken 1); [lia | apply runs_remove_repo].
Qed.

(** C3 (amended): for every input and every behaviour of the package
    manager, a run executes at most three commands (the query, a removal
    and an add). *)
Theorem run_at_most_three_commands (p : params) :
  length (run p).2 ≤ 3.
Proof.
  assert (H : runs_at_most 3 (main p)).
  { rewrite main_unfold.
    apply (runs_bind 0 3); [apply runs_check_params |]. intros _.
    apply (runs_bind 1 2); [apply runs_repo_exists |]. intros em.
    apply runs_reconcile. }
  unfold run. destruct (H []) as (l & -> & Hl). done.
Qed.

(** ** Parsed entries *)

Lemma parse_repo_Ret e opts :
  parse_repo e = Ret opts →
  ∃ data rest,
    urls e = Some data :: rest
    ∧ opts = <["url" := data]>
               (foldl (λ opts o, <[o := getAttribute e o]> opts) ∅ REPO_OPTS).
Proof.
  unfold parse_repo. destruct (urls e) as [| [data |] rest]; try done.
  intros [= <-]. eauto.
Qed.

(** X1: every parsed entry has exactly the keys alias, name, priority,
    enabled, autorefresh, gpgcheck and url; an attribute the element
    lacks is the empty string, and url is the text of the first url
    element. *)
Theorem parsed_entry_keys (e : repo_elem) (opts : gmap string string) :
  parse_repo e = Ret opts →
  dom opts = list_to_set (REPO_OPTS ++ ["url"])
  ∧ (∀ o, o ∈ REPO_OPTS → opts !! o = Some (default "" (attrs e !! o)))
  ∧ (∃ data, head (urls e) = Some (Some data) ∧ opts !! "url" = Some data).
Proof.
  intros H. apply parse_repo_Ret in H as (data & rest & Hu & ->).
  split; [| split].
  - simpl. rewrite !dom_insert_L, dom_empty_L. set_solver.
  - intros o Ho. unfold REPO_OPTS in Ho.
    repeat (apply elem_of_cons in Ho as [-> | Ho]); try done.
    by apply elem_of_nil in Ho.
  - exists data. rewrite Hu. split; [done |]. by rewrite lookup_insert_eq.
Qed.

(** X2: the parsed list has one entry per repo element, in document
    order. *)
Theorem parse_repo_list_pointwise (l : list repo_elem)
    (repos : list (gmap string string)) :
  parse_repo_list l = Ret repos
  ↔ Forall2 (λ e opts, parse_repo e = Ret opts) l repos.
Proof.
  revert repos. induction l as [| e l IH]; intros repos; simpl.
  - split.
    + intros [= <-]. constructor.
    + intros H. by inversion H.
  - split.
    + destruct (parse_repo e) as [opts | | |] eqn:He; try done.
      destruct (parse_repo_list l) as [rs | | |] eqn:Hl; try done.
      intros [= <-]. constructor; [done |]. by apply IH.
    + intros H. inversion H as [| ? opts ? rs He Hl]; subst.
      rewrite He. apply IH in Hl. by rewrite Hl.
Qed.

Lemma parse_repo_cases e :
  (∃ data opts, head (urls e) = Some (Some data) ∧ parse_repo e = Ret opts)
  ∨ ((head (urls e) = None ∨ head (urls e) = Some None)
     ∧ ∃ x, parse_repo e = Raise x).
Proof.
  unfold parse_repo. destruct (urls e) as [| [data |] rest]; simpl.
  - right. eauto.
  - left. eauto.
  - right. eauto.
Qed.

(** X3: parsing returns a list exactly when every repo element has a
    url element with text; otherwise an exception is raised and nothing
    is returned. *)
Theorem parse_repo_list_returns_iff (l : list repo_elem) :
  ((∃ repos, parse_repo_list l = Ret repos)
   ↔ Forall (λ e, ∃ data, head (urls e) = Some (Some data)) l)
  ∧ ((∃ x, parse_repo_list l = Raise x)
     ↔ Exists (λ e, head (urls e) = None ∨ head (urls e) = Some None) l).
Proof.
  induction l as [| e l [IHr IHx]].
  - simpl. split; split.
    + intros _. constructor.
    + intros _. eauto.
    + intros [x Hx]. done.
    + intros H. by apply Exists_nil in H.
  - cbn [parse_repo_list]. rewrite Forall_cons, Exists_cons, <- IHr, <- IHx.
    clear IHr IHx.
    destruct (parse_repo_cases e) as [(data & opts & Hd & He) | (Hd & x & He)];
      rewrite He.
    + destruct (parse_repo_list l) as [rs | | |]; split; split;
        try (intros [? ?]; done);
        try (intros [_ [? ?]]; done);
        try (intros [[H | H] | [? H]]; rewrite ?H in Hd; done);
        eauto.
    + split; split; eauto.
      * intros [? ?]; done.
      * intros [[data Hd'] _].
        destruct Hd as [Hd | Hd]; rewrite Hd in Hd'; done.
Qed.

(** ** More on the difference check *)

Lemma rstrip_snoc (c : ascii) (s : string) :
  rstrip c (s +:+ String c "") = rstrip c s.
Proof.
  induction s as [| a s IH]; simpl.
  - by rewrite Ascii.eqb_refl.
  - by rewrite IH.
Qed.

Lemma repo_changes_congruence (r1 r2 : gmap string string)
    (cmp1 cmp2 : gmap string (option string)) :
  (∀ k, is_Some (cmp1 !! k) ↔ is_Some (cmp2 !! k)) →
  (∀ k w1, cmp1 !! k = Some w1 →
           ∃ w2, cmp2 !! k = Some w2
                 ∧ rstrip "/" (or_empty w1) = rstrip "/" (or_empty w2)
                 ∧ (rstrip "/" <$> r1 !! k) = (rstrip "/" <$> r2 !! k)) →
  repo_changes r1 cmp1 = false → repo_changes r2 cmp2 = false.
Proof.
  intros Hd Hc H1. rewrite repo_changes_false_iff in H1.
  apply repo_changes_false_iff. intros k w2 Hw2.
  destruct (proj2 (Hd k) (mk_is_Some _ _ Hw2)) as [w1 Hw1].
  destruct (Hc k w1 Hw1) as (w2' & Hw2' & Hn & Hr).
  assert (w2' = w2) as -> by congruence.
  destruct (H1 k w1 Hw1) as (v1 & Hv1 & E1).
  rewrite Hv1 in Hr. simpl in Hr.
  destruct (r2 !! k) as [v2 |]; [| done].
  exists v2. split; [done |]. simpl in Hr. congruence.
Qed.

(** X4: only the compared keys of the existing entry matter: two
    entries that agree on every key of the comparison set get the same
    verdict, whatever their other attributes are. *)
Theorem repo_changes_only_compared_keys (r1 r2 : gmap string string)
    (repocmp : gmap string (option string)) :
  map_Forall (λ k _, r1 !! k = r2 !! k) repocmp →
  repo_changes r1 repocmp = repo_changes r2 repocmp.
Proof.
  intros H.
  assert (Hk : ∀ k w, repocmp !! k = Some w → r1 !! k = r2 !! k)
    by (intros k w Hw; exact (H k w Hw)).
  destruct (repo_changes r1 repocmp) eqn:E1, (repo_changes r2 repocmp) eqn:E2;
    try done.
  - assert (repo_changes r1 repocmp = false); [| congruence].
    apply (repo_changes_congruence r2 r1 repocmp repocmp); try done.
    intros k w Hw. exists w. rewrite (Hk k w Hw). done.
  - assert (repo_changes r2 repocmp = false); [| congruence].
    apply (repo_changes_congruence r1 r2 repocmp repocmp); try done.
    intros k w Hw. exists w. rewrite (Hk k w Hw). done.
Qed.

Lemma repo_changes_fmap (f : string → string)
    (g : option string → option string)
    (r : gmap string string) (cmp : gmap string (option string)) :
  (∀ v, rstrip "/" (f v) = rstrip "/" v) →
  (∀ w, rstrip "/" (or_empty (g w)) = rstrip "/" (or_empty w)) →
  repo_changes (f <$> r) (g <$> cmp) = repo_changes r cmp.
Proof.
  intros Hf Hg.
  assert (Hdom : ∀ k, is_Some (cmp !! k) ↔ is_Some ((g <$> cmp) !! k)).
  { intros k. rewrite lookup_fmap. by rewrite fmap_is_Some. }
  assert (Hr : ∀ k, rstrip "/" <$> r !! k = rstrip "/" <$> (f <$> r) !! k).
  { intros k. rewrite lookup_fmap. destruct (r !! k); simpl; [| done].
    by rewrite Hf. }
  destruct (repo_changes (f <$> r) (g <$> cmp)) eqn:E1,
           (repo_changes r cmp) eqn:E2; try done.
  - assert (repo_changes (f <$> r) (g <$> cmp) = false); [| congruence].
    apply (repo_changes_congruence r (f <$> r) cmp (g <$> cmp)); try done.
    intros k w Hw. exists (g w). rewrite lookup_fmap, Hw. simpl.
    by rewrite Hg, Hr.
  - assert (repo_changes r cmp = false); [| congruence].
    apply (repo_changes_congruence (f <$> r) r (g <$> cmp) cmp); try done.
    intros k w1 Hw1. rewrite lookup_fmap in Hw1.
    destruct (cmp !! k) as [w |] eqn:Hw; [| done].
    simpl in Hw1. injection Hw1 as <-.
    exists w. by rewrite Hg, Hr.
Qed.

(** X5: the verdict does not depend on trailing slashes, on either
    side, and a supplied [None] counts as the empty string. *)
Theorem repo_changes_modulo_slashes (r : gmap string string)
    (cmp : gmap string (option string)) :
  repo_changes ((λ v, v +:+ "/") <$> r) cmp = repo_changes r cmp
  ∧ repo_changes r ((λ w, Some (or_empty w +:+ "/")) <$> cmp)
    = repo_changes r cmp
  ∧ repo_changes r ((λ w, Some (or_empty w)) <$> cmp) = repo_changes r cmp.
Proof.
  split; [| split].
  - transitivity (repo_changes ((λ v, v +:+ "/") <$> r) (id <$> cmp));
      [by rewrite map_fmap_id |].
    apply repo_changes_fmap; [| done]. intros v. apply rstrip_snoc.
  - transitivity (repo_changes (id <$> r)
                    ((λ w, Some (or_empty w +:+ "/")) <$> cmp));
      [by rewrite map_fmap_id |].
    apply repo_changes_fmap; [done |].
    intros w. rewrite or_empty_Some. apply rstrip_snoc.
  - transitivity (repo_changes (id <$> r) ((λ w, Some (or_empty w)) <$> cmp));
      [by rewrite map_fmap_id |].
    apply repo_changes_fmap; [done |].
    intros w. by rewrite or_empty_Some.
Qed.

(** ** Results of [repo_exists] *)

Lemma _parse_repos_Ret ident t repos :
  (_parse_repos ident t).1 = Ret repos →
  query_returns t ident repos
  ∨ (rc (zypper t (lr_cmd ident)) = 6%Z ∧ repos = []).
Proof.
  intros H.
  destruct (Z.eq_dec (rc (zypper t (lr_cmd ident))) 0%Z) as [E | E].
  { rewrite (_parse_repos_rc0 _ _ E) in H. left. by split. }
  destruct (Z.eq_dec (rc (zypper t (lr_cmd ident))) 6%Z) as [E' | E'].
  { rewrite (_parse_repos_rc6 _ _ E') in H. right. split; [done |].
    simpl in H. congruence. }
  rewrite (_parse_repos_other _ _ E E') in H. done.
Qed.

(** X6: [repo_exists] never reports a difference for a repository it
    did not find; it reports exists=true exactly when the query for the
    token returned one entry, and differs is then the verdict on that
    entry. *)
Theorem repo_exists_result (kwargs : gmap string (option string))
    (t : list cmd) (e m : bool) :
  (repo_exists kwargs t).1 = Ret (e, m) →
  (m = true → e = true)
  ∧ (e = true →
     ∃ ident realrepo,
       repo_ident kwargs = Some ident
       ∧ query_returns t ident [realrepo]
       ∧ m = repo_changes realrepo kwargs)
  ∧ (e = false →
     truthy (repo_ident kwargs) = false
     ∨ ∃ ident,
         repo_ident kwargs = Some ident
         ∧ (query_returns t ident []
            ∨ rc (zypper t (lr_cmd ident)) = 6%Z)).
Proof.
  unfold repo_exists. intros H.
  destruct (truthy (repo_ident kwargs)) eqn:Ht.
  - destruct (repo_ident kwargs) as [ident |] eqn:Hi; [| done].
    rewrite or_empty_Some in H. unfold bind in H.
    destruct (_parse_repos ident t) as [[repos | | |] t'] eqn:Hp; try done.
    assert (Hq : (_parse_repos ident t).1 = Ret repos) by by rewrite Hp.
    apply _parse_repos_Ret in Hq.
    destruct repos as [| r1 [| r2 rest]]; simpl in H; try done.
    + injection H as <- <-. repeat split; try done.
      intros _. right. exists ident. split; [done |].
      destruct Hq as [Hq | [Hq _]]; eauto.
    + injection H as <- <-. split; [done |]. split; [| done].
      intros _. exists ident, r1. split; [done |]. split; [| done].
      destruct Hq as [Hq | [_ Hq]]; done.
  - simpl in H. injection H as <- <-. repeat split; try done.
    intros _. by left.
Qed.

(** ** Valid parameters *)

Lemma truthy_Some v : truthy v = true → ∃ s, v = Some s.
Proof. destruct v; [eauto | done]. Qed.

Lemma is_repo_file_true repo :
  is_repo_file repo = true ↔ ∃ r, repo = Some r ∧ endswith r ".repo" = true.
Proof.
  destruct repo as [r |].
  - rewrite is_repo_file_Some. split; [eauto |]. by intros (r' & [= <-] & H).
  - split; [done |]. by intros (r' & H & _).
Qed.

Lemma is_repo_file_false repo :
  is_repo_file repo = false ↔ ∀ r, repo = Some r → endswith r ".repo" = false.
Proof.
  destruct repo as [r |].
  - rewrite is_repo_file_Some. split; [by intros H r' [= <-] | eauto].
  - split; done.
Qed.

Lemma valid_facts p :
  ¬ invalid p →
  (p_state p = present → truthy (p_repo p) = true)
  ∧ (truthy (p_repo p) = true ∨ truthy (p_name p) = true)
  ∧ (is_repo_file (p_repo p) = true → truthy (p_name p) = false)
  ∧ (p_state p = present → is_repo_file (p_repo p) = false →
     truthy (p_name p) = true).
Proof.
  intros Hv. unfold invalid in Hv. split; [| split; [| split]].
  - intros Hs. destruct (truthy (p_repo p)) eqn:Hr; [done |].
    exfalso. apply Hv. by left.
  - destruct (truthy (p_repo p)) eqn:Hr; [by left |].
    destruct (truthy (p_name p)) eqn:Hn; [by right |].
    exfalso. apply Hv. destruct (p_state p); [by left | right; by left].
  - intros Hf. destruct (truthy (p_name p)) eqn:Hn; [| done].
    exfalso. apply Hv. right; right; left.
    apply is_repo_file_true in Hf as (r & Hr & He). eauto.
  - intros Hs Hf. destruct (truthy (p_name p)) eqn:Hn; [done |].
    exfalso. apply Hv. right; right; right.
    split; [by apply is_repo_file_false | done].
Qed.

Lemma valid_token p : ¬ invalid p → ∃ ident, token p ident.
Proof.
  intros Hv. destruct (valid_facts p Hv) as (_ & Ht & _).
  unfold token, py_or.
  destruct (truthy (p_name p)) eqn:Hn.
  - destruct (truthy_Some _ Hn) as [s Hs]. exists s. by rewrite <- Hs.
  - destruct Ht as [Hr | Hr]; [| done].
    destruct (truthy_Some _ Hr) as [s Hs]. exists s. by rewrite <- Hs.
Qed.

Lemma token_ident p ident :
  token p ident →
  repo_ident (main_kwargs p) = Some ident ∧ truthy (Some ident) = true.
Proof. intros [H1 H2]. by rewrite main_kwargs_ident. Qed.

Lemma run_valid p :
  ¬ invalid p →
  run p = bind (repo_exists (main_kwargs p)) (reconcile p) [].
Proof.
  intros Hv. unfold run. rewrite main_unfold.
  destruct (check_params_cases p []) as [[Hi _] | [_ Hok]]; [done |].
  by rewrite (bind_Ret _ _ _ _ _ Hok).
Qed.

Lemma run_invalid p :
  invalid p →
  ∃ msg, run p = (Fail (fail_json (Msg msg) None None None), []).
Proof.
  intros Hi. unfold run. rewrite main_unfold.
  destruct (check_params_cases p []) as [[_ [msg Hm]] | [Hv _]]; [| done].
  exists msg. by rewrite (bind_Fail _ _ _ _ _ Hm).
Qed.

(** ** The steps after the query *)

Lemma add_step c t :
  bind (run_command c false)
       (λ r, if (rc r =? 0)%Z then ret true
             else if truthy (Some (stderr r))
                  then fail (fail_json (Msg (stderr r)) None None None)
                  else fail (fail_json (Msg (stdout r)) None None None)) t
  = (add_outcome (zypper t c), t ++ [c]).
Proof.
  rewrite (bind_Ret _ _ _ _ _ (run_command_lax _ _)). unfold add_outcome.
  destruct (rc (zypper t c) =? 0)%Z; [done |].
  by destruct (truthy (Some (stderr (zypper t c)))).
Qed.

Lemma modify_repo_add repo alias d g f c t :
  ar_cmd repo alias d g f = Some c →
  modify_repo repo alias d g f false t = (add_outcome (zypper t c), t ++ [c]).
Proof.
  intros E. unfold modify_repo. rewrite E.
  assert (H0 : ret (A:=bool) false t = (Ret false, t)) by done.
  rewrite (bind_Ret _ _ _ _ _ H0). apply add_step.
Qed.

Lemma modify_repo_replace repo alias d g f c t :
  ar_cmd repo alias d g f = Some c →
  rc (zypper t (rr_cmd repo alias)) = 0%Z →
  modify_repo repo alias d g f true t
  = (add_outcome (zypper (t ++ [rr_cmd repo alias]) c),
     t ++ [rr_cmd repo alias; c]).
Proof.
  intros E H. unfold modify_repo. rewrite E.
  rewrite (bind_Ret _ _ _ _ _ (remove_repo_ok _ _ _ H)).
  rewrite add_step. by rewrite <- app_assoc.
Qed.

Lemma modify_repo_replace_fail repo alias d g f c t :
  ar_cmd repo alias d g f = Some c →
  rc (zypper t (rr_cmd repo alias)) ≠ 0%Z →
  modify_repo repo alias d g f true t
  = (Fail (check_rc_failed (rr_cmd repo alias) (zypper t (rr_cmd repo alias))),
     t ++ [rr_cmd repo alias]).
Proof.
  intros E H. unfold modify_repo. rewrite E.
  by rewrite (bind_Fail _ _ _ _ _ (remove_repo_fail _ _ _ H)).
Qed.

Lemma reconcile_absent_missing p m t :
  p_state p = absent →
  reconcile p (false, m) t = (Exit (exit_same p), t).
Proof. intros H. unfold reconcile. by rewrite H. Qed.

Lemma reconcile_absent_found p m t :
  p_state p = absent →
  reconcile p (true, m) t
  = (finish p (remove_repo (p_repo p) (p_name p) t).1,
     (remove_repo (p_repo p) (p_name p) t).2).
Proof.
  intros H. unfold reconcile. rewrite H. unfold bind; simpl.
  destruct (remove_repo (p_repo p) (p_name p) t) as [[b | | |] t'];
    simpl; unfold exit_json; by rewrite ?H.
Qed.

Lemma reconcile_present p e m t :
  p_state p = present →
  e && negb m = false →
  reconcile p (e, m) t
  = (finish p (modify_repo (p_repo p) (p_name p) (p_description p)
                 (p_disable_gpg_check p) (p_refresh p) m t).1,
     (modify_repo (p_repo p) (p_name p) (p_description p)
        (p_disable_gpg_check p) (p_refresh p) m t).2).
Proof.
  intros H Hem. unfold reconcile. rewrite H, Hem. unfold bind; simpl.
  destruct (modify_repo _ _ _ _ _ _ t) as [[b | | |] t'];
    simpl; unfold exit_json; by rewrite ?H.
Qed.

Lemma valid_ar_cmd p :
  ¬ invalid p → p_state p = present →
  ∃ c, ar_cmd (p_repo p) (p_name p) (p_description p)
              (p_disable_gpg_check p) (p_refresh p) = Some c.
Proof.
  intros Hv Hs. destruct (valid_facts p Hv) as (Hr & _).
  destruct (truthy_Some _ (Hr Hs)) as [r ->]. unfold ar_cmd. eauto.
Qed.

Lemma valid_of_check p t : check_params p t = (Ret tt, t) → ¬ invalid p.
Proof.
  intros H Hi.
  destruct (check_params_cases p t) as [[_ [msg Hm]] | [Hv _]]; [| done].
  congruence.
Qed.

Lemma repo_exists_missing kwargs t ident :
  repo_ident kwargs = Some ident →
  truthy (Some ident) = true →
  query_returns t ident [] ∨ rc (zypper t (lr_cmd ident)) = 6%Z →
  repo_exists kwargs t = (Ret (false, false), t ++ [lr_cmd ident]).
Proof.
  intros Hi Ht [Hq | H6].
  - by rewrite (repo_exists_query _ _ _ _ Hi Ht Hq).
  - unfold repo_exists. rewrite Hi, Ht, or_empty_Some.
    by rewrite (bind_Ret _ _ _ _ _ (_parse_repos_rc6 _ _ H6)).
Qed.

Lemma finish_add_outcome p r :
  (rc r = 0%Z → finish p (add_outcome r) = Exit (exit_changed p))
  ∧ (rc r ≠ 0%Z →
     finish p (add_outcome r)
     = Fail (fail_json
               (Msg (if truthy (Some (stderr r)) then stderr r else stdout r))
               None None None)).
Proof.
  unfold add_outcome. split; intros H.
  - by rewrite H.
  - by destruct (Z.eqb_spec (rc r) 0).
Qed.

(** ** What a run does, case by case *)

(** X7: with state=absent and no existing repository (the query lists
    nothing, or exits with 6) the run exits with changed=false after the
    query alone. *)
Theorem absent_missing_is_unchanged (p : params) (ident : string) :
  check_params p [] = (Ret tt, []) →
  p_state p = absent →
  token p ident →
  query_returns [] ident [] ∨ rc (zypper [] (lr_cmd ident)) = 6%Z →
  run p = (Exit (exit_same p), [lr_cmd ident]).
Proof.
  intros Hc Hs Ht Hq. apply valid_of_check in Hc.
  destruct (token_ident p ident Ht) as [Hi Htr].
  rewrite (run_valid p Hc).
  rewrite (bind_Ret _ _ _ _ _ (repo_exists_missing _ _ _ Hi Htr Hq)).
  by apply reconcile_absent_missing.
Qed.

(** X8: with state=absent an existing repository is removed whether or
    not it differs from the parameters: the removal follows the query,
    and the run reports changed=true when it exits with 0 and aborts
    otherwise. *)
Theorem absent_found_is_removed (p : params) (ident : string)
    (realrepo : gmap string string) :
  check_params p [] = (Ret tt, []) →
  p_state p = absent →
  token p ident →
  query_returns [] ident [realrepo] →
  let q := lr_cmd ident in
  let rm := rr_cmd (p_repo p) (p_name p) in
  (rc (zypper [q] rm) = 0%Z → run p = (Exit (exit_changed p), [q; rm]))
  ∧ (rc (zypper [q] rm) ≠ 0%Z →
     run p = (Fail (check_rc_failed rm (zypper [q] rm)), [q; rm])).
Proof.
  intros Hc Hs Ht Hq q rm. apply valid_of_check in Hc.
  destruct (token_ident p ident Ht) as [Hi Htr].
  rewrite (run_valid p Hc).
  rewrite (bind_Ret _ _ _ _ _ (repo_exists_query _ _ _ _ Hi Htr Hq)).
  rewrite (reconcile_absent_found _ _ _ Hs). simpl. fold q rm.
  split; intros Hrc.
  - rewrite (remove_repo_ok _ _ _ Hrc). simpl. unfold exit_changed. done.
  - by rewrite (remove_repo_fail _ _ _ Hrc).
Qed.

(** X9: with state=present and no existing repository the add command
    follows the query directly and nothing is removed; the run reports
    changed=true when the add exits with 0, and otherwise fails with its
    stderr, or with its stdout when stderr is empty. *)
Theorem present_missing_is_added (p : params) (ident : string) :
  check_params p [] = (Ret tt, []) →
  p_state p = present →
  token p ident →
  query_returns [] ident [] ∨ rc (zypper [] (lr_cmd ident)) = 6%Z →
  let q := lr_cmd ident in
  ∃ c, ar_cmd (p_repo p) (p_name p) (p_description p)
              (p_disable_gpg_check p) (p_refresh p) = Some c
       ∧ (rc (zypper [q] c) = 0%Z →
          run p = (Exit (exit_changed p), [q; c]))
       ∧ (rc (zypper [q] c) ≠ 0%Z →
          run p = (Fail (fail_json
                           (Msg (if truthy (Some (stderr (zypper [q] c)))
                                 then stderr (zypper [q] c)
                                 else stdout (zypper [q] c)))
                           None None None),
                   [q; c])).
Proof.
  intros Hc Hs Ht Hq q. apply valid_of_check in Hc.
  destruct (token_ident p ident Ht) as [Hi Htr].
  destruct (valid_ar_cmd p Hc Hs) as [c Hcmd]. exists c. split; [done |].
  rewrite (run_valid p Hc).
  rewrite (bind_Ret _ _ _ _ _ (repo_exists_missing _ _ _ Hi Htr Hq)).
  rewrite (reconcile_present p false false _ Hs eq_refl).
  rewrite (modify_repo_add _ _ _ _ _ _ _ Hcmd). simpl. fold q.
  destruct (finish_add_outcome p (zypper [q] c)) as [H0 H1].
  split; intros Hrc; [by rewrite (H0 Hrc) | by rewrite (H1 Hrc)].
Qed.

(** X10: with state=present and an existing repository that differs,
    the repository is removed and then added.  A failing removal aborts
    the run before the add; a failing add aborts it after the removal
    has been done, and nothing is executed to restore the repository. *)
Theorem present_differing_is_replaced (p : params) (ident : string)
    (realrepo : gmap string string) :
  check_params p [] = (Ret tt, []) →
  p_state p = present →
  token p ident →
  query_returns [] ident [realrepo] →
  repo_changes realrepo (main_kwargs p) = true →
  let q := lr_cmd ident in
  let rm := rr_cmd (p_repo p) (p_name p) in
  ∃ c, ar_cmd (p_repo p) (p_name p) (p_description p)
              (p_disable_gpg_check p) (p_refresh p) = Some c
       ∧ (rc (zypper [q] rm) ≠ 0%Z →
          run p = (Fail (check_rc_failed rm (zypper [q] rm)), [q; rm]))
       ∧ (rc (zypper [q] rm) = 0%Z → rc (zypper [q; rm] c) = 0%Z →
          run p = (Exit (exit_changed p), [q; rm; c]))
       ∧ (rc (zypper [q] rm) = 0%Z → rc (zypper [q; rm] c) ≠ 0%Z →
          run p = (Fail (fail_json
                           (Msg (if truthy (Some (stderr (zypper [q; rm] c)))
                                 then stderr (zypper [q; rm] c)
                                 else stdout (zypper [q; rm] c)))
                           None None None),
                   [q; rm; c])).
Proof.
  intros Hc Hs Ht Hq Hd q rm. apply valid_of_check in Hc.
  destruct (token_ident p ident Ht) as [Hi Htr].
  destruct (valid_ar_cmd p Hc Hs) as [c Hcmd]. exists c. split; [done |].
  rewrite (run_valid p Hc).
  rewrite (bind_Ret _ _ _ _ _ (repo_exists_query _ _ _ _ Hi Htr Hq)), Hd.
  rewrite (reconcile_present p true true _ Hs eq_refl). simpl. fold q rm.
  destruct (finish_add_outcome p (zypper [q; rm] c)) as [H0 H1].
  split; [| split].
  - intros Hrm.
    by rewrite (modify_repo_replace_fail _ _ _ _ _ _ _ Hcmd Hrm).
  - intros Hrm Hrc.
    rewrite (modify_repo_replace _ _ _ _ _ _ _ Hcmd Hrm). simpl. fold rm.
    by rewrite (H0 Hrc).
  - intros Hrm Hrc.
    rewrite (modify_repo_replace _ _ _ _ _ _ _ Hcmd Hrm). simpl. fold rm.
    by rewrite (H1 Hrc).
Qed.

(** X11: an error of the query ends the run at once: an exit code other
    than 0 and 6 fails it, and output that cannot be parsed raises the
    parser's exception; in both cases the query is the only command
    executed. *)
Theorem query_error_stops_run (p : params) (ident : string) :
  check_params p [] = (Ret tt, []) →
  token p ident →
  let q := lr_cmd ident in
  (rc (zypper [] q) ≠ 0%Z → rc (zypper [] q) ≠ 6%Z →
   run p = (Fail (query_failure ident (zypper [] q)), [q]))
  ∧ (∀ x, rc (zypper [] q) = 0%Z →
          parse_stdout (stdout (zypper [] q)) = Raise x →
          run p = (Raise x, [q])).
Proof.
  intros Hc Ht q. apply valid_of_check in Hc.
  destruct (token_ident p ident Ht) as [Hi Htr].
  rewrite (run_valid p Hc). unfold repo_exists.
  rewrite Hi, Htr, or_empty_Some. split.
  - intros H0 H6.
    rewrite (bind_Fail _ _ _ _ _
               (bind_Fail _ _ _ _ _ (_parse_repos_other _ _ H0 H6))).
    done.
  - intros x H0 Hx.
    assert (Hp : _parse_repos ident [] = (Raise x, [q])).
    { rewrite (_parse_repos_rc0 _ _ H0). fold q. by rewrite Hx. }
    by rewrite (bind_Raise _ _ _ _ _ (bind_Raise _ _ _ _ _ Hp)).
Qed.

(** ** The shape of every run *)

Lemma _parse_repos_not_Exit ident t x : (_parse_repos ident t).1 ≠ Exit x.
Proof.
  destruct (Z.eq_dec (rc (zypper t (lr_cmd ident))) 0%Z) as [E | E].
  { rewrite (_parse_repos_rc0 _ _ E). simpl.
    by destruct (parse_stdout_shape (stdout (zypper t (lr_cmd ident))))
      as [[r ->] | [r ->]]. }
  destruct (Z.eq_dec (rc (zypper t (lr_cmd ident))) 6%Z) as [E' | E'].
  { by rewrite (_parse_repos_rc6 _ _ E'). }
  by rewrite (_parse_repos_other _ _ E E').
Qed.

Lemma repo_exists_outcome kwargs t :
  match (repo_exists kwargs t).1 with
  | Ret (e, m) => e = false → m = false
  | Exit _ => False
  | _ => True
  end.
Proof.
  unfold repo_exists. destruct (truthy (repo_ident kwargs)); [| done].
  unfold bind.
  pose proof (_parse_repos_not_Exit (or_empty (repo_ident kwargs)) t) as Hx.
  destruct (_parse_repos (or_empty (repo_ident kwargs)) t)
    as [[repos | x | f | x] t']; simpl in *; try done.
  - by destruct repos as [| r1 [| r2 rest]].
  - by apply (Hx x).
Qed.

Lemma finish_add_cases p r :
  finish p (add_outcome r) = Exit (exit_changed p)
  ∨ add_failed (finish p (add_outcome r)).
Proof.
  destruct (finish_add_outcome p r) as [H0 H1].
  destruct (Z.eq_dec (rc r) 0%Z) as [E | E].
  - left. auto.
  - right. unfold add_failed. rewrite (H1 E). eauto.
Qed.

Lemma run_has_shape p : run_shape p (run p).1 (run p).2.
Proof.
  destruct (check_params_cases p []) as [[Hi _] | [Hv _]].
  { destruct (run_invalid p Hi) as [msg ->]. by apply shape_rejected. }
  destruct (valid_token p Hv) as [ident Ht].
  destruct (token_ident p ident Ht) as [Hi Htr].
  rewrite (run_valid p Hv).
  pose proof (repo_exists_trace (main_kwargs p) []) as Htrace.
  rewrite Hi, or_empty_Some in Htrace. specialize (Htrace Htr).
  simpl in Htrace.
  pose proof (repo_exists_outcome (main_kwargs p) []) as Hout.
  unfold bind.
  destruct (repo_exists (main_kwargs p) []) as [[[e m] | x | f | x] t'];
    simpl in Htrace, Hout; subst t'; cbv beta iota; try done.
  - destruct (p_state p) eqn:Hs.
    + destruct (valid_ar_cmd p Hv Hs) as [c Hc].
      destruct e, m.
      * rewrite (reconcile_present p true true _ Hs eq_refl).
        destruct (Z.eq_dec
                    (rc (zypper [lr_cmd ident]
                           (rr_cmd (p_repo p) (p_name p)))) 0%Z) as [E | E].
        -- rewrite (modify_repo_replace _ _ _ _ _ _ _ Hc E). simpl.
           apply shape_replaced; try done. apply finish_add_cases.
        -- rewrite (modify_repo_replace_fail _ _ _ _ _ _ _ Hc E). simpl.
           by apply shape_remove_failed.
      * rewrite (reconcile_unchanged p _ Hs).
        replace present with (p_state p). by apply shape_unchanged.
      * by specialize (Hout eq_refl).
      * rewrite (reconcile_present p false false _ Hs eq_refl).
        rewrite (modify_repo_add _ _ _ _ _ _ _ Hc). simpl.
        apply shape_added; try done. apply finish_add_cases.
    + destruct e.
      * rewrite (reconcile_absent_found p m _ Hs).
        destruct (Z.eq_dec
                    (rc (zypper [lr_cmd ident]
                           (rr_cmd (p_repo p) (p_name p)))) 0%Z) as [E | E].
        -- rewrite (remove_repo_ok _ _ _ E). simpl.
           by apply shape_removed.
        -- rewrite (remove_repo_fail _ _ _ E). simpl.
           by apply shape_remove_failed.
      * rewrite (reconcile_absent_missing p m _ Hs).
        by apply shape_unchanged.
  - by apply shape_query_failed.
  - by apply shape_query_raised.
Qed.

Lemma ar_cmd_verb repo alias d g f c :
  ar_cmd repo alias d g f = Some c → c !! 1 = Some (Some "ar").
Proof.
  unfold ar_cmd. destruct repo as [r |]; [| done]. intros [= <-].
  by destruct (truthy d), g, f, (endswith r ".repo").
Qed.

Lemma rr_cmd_verb repo alias : rr_cmd repo alias !! 1 = Some (Some "rr").
Proof. unfold rr_cmd. by destruct (truthy alias). Qed.

(** X12: the commands of a run come in a fixed order: at most one
    query (the vector [zypper -x lr token]), then at most one removal,
    then at most one add; a removal or an add is only executed after the
    query. *)
Theorem run_commands_in_order (p : params) :
  ∃ q rm add,
    (run p).2 = q ++ rm ++ add
    ∧ length q ≤ 1 ∧ length rm ≤ 1 ∧ length add ≤ 1
    ∧ Forall (λ c, ∃ ident, c = lr_cmd ident ∧ token p ident) q
    ∧ Forall (λ c : cmd, c = rr_cmd (p_repo p) (p_name p)) rm
    ∧ Forall (λ c : cmd,
                ar_cmd (p_repo p) (p_name p) (p_description p)
                       (p_disable_gpg_check p) (p_refresh p) = Some c) add
    ∧ (q = [] → rm = [] ∧ add = []).
Proof.
  pose proof (run_has_shape p) as H.
  destruct (run p) as [o t]. simpl in *.
  destruct H as [msg Hi | ident f Hv Ht | ident e Hv Ht | ident Hv Ht
                | ident Hv Ht Hs | ident r Hv Ht Hr
                | ident c o Hv Ht Hs Hc Ho | ident c o Hv Ht Hs Hc Ho].
  - exists [], [], []. repeat split; simpl; try done; lia.
  - exists [lr_cmd ident], [], [].
    repeat split; simpl; try done; try lia; repeat constructor; eauto.
  - exists [lr_cmd ident], [], [].
    repeat split; simpl; try done; try lia; repeat constructor; eauto.
  - exists [lr_cmd ident], [], [].
    repeat split; simpl; try done; try lia; repeat constructor; eauto.
  - exists [lr_cmd ident], [rr_cmd (p_repo p) (p_name p)], [].
    repeat split; simpl; try done; try lia; repeat constructor; eauto.
  - exists [lr_cmd ident], [rr_cmd (p_repo p) (p_name p)], [].
    repeat split; simpl; try done; try lia; repeat constructor; eauto.
  - exists [lr_cmd ident], [], [c].
    repeat split; simpl; try done; try lia; repeat constructor; eauto.
  - exists [lr_cmd ident], [rr_cmd (p_repo p) (p_name p)], [c].
    repeat split; simpl; try done; try lia; repeat constructor; eauto.
Qed.

(** X13: a run with state=absent never executes the add command. *)
Theorem absent_never_adds (p : params) :
  p_state p = absent →
  Forall (λ c : cmd, c !! 1 ≠ Some (Some "ar")) (run p).2.
Proof.
  intros Hs. pose proof (run_has_shape p) as H.
  destruct (run p) as [o t]. simpl in *.
  assert (Hrr : rr_cmd (p_repo p) (p_name p) !! 1 ≠ Some (Some "ar"))
    by by rewrite rr_cmd_verb.
  destruct H as [msg Hi | ident f Hv Ht | ident e Hv Ht | ident Hv Ht
                | ident Hv Ht Hs' | ident r Hv Ht Hr
                | ident c o Hv Ht Hs' Hc Ho | ident c o Hv Ht Hs' Hc Ho];
    try congruence; by repeat constructor.
Qed.

Lemma valid_rr_cmd_args p :
  ¬ invalid p →
  Forall (λ a, truthy a = true) (rr_cmd (p_repo p) (p_name p)).
Proof.
  intros Hv. destruct (valid_facts p Hv) as (_ & Ht & _).
  unfold rr_cmd. destruct (truthy (p_name p)) eqn:Hn.
  - by repeat constructor.
  - destruct Ht as [Hr | Hr]; [| done]. by repeat constructor.
Qed.

Lemma valid_ar_cmd_args p c :
  ¬ invalid p → p_state p = present →
  ar_cmd (p_repo p) (p_name p) (p_description p)
         (p_disable_gpg_check p) (p_refresh p) = Some c →
  Forall (λ a, truthy a = true) c.
Proof.
  intros Hv Hs Hc. destruct (valid_facts p Hv) as (Hr & _ & _ & Hn).
  specialize (Hr Hs). specialize (Hn Hs).
  unfold ar_cmd in Hc. destruct (p_repo p) as [r |] eqn:Hrepo; [| done].
  rewrite is_repo_file_Some in Hn. injection Hc as <-.
  destruct (truthy (p_description p)) eqn:Hd,
           (p_disable_gpg_check p), (p_refresh p),
           (endswith r ".repo") eqn:He; simpl;
    repeat constructor; try done; by apply Hn.
Qed.

(** X14: every argument of every command a run executes is a non-empty
    string: no command is given [None] or an empty argument. *)
Theorem commands_have_no_empty_argument (p : params) :
  Forall (λ c : cmd, Forall (λ a, truthy a = true) c) (run p).2.
Proof.
  pose proof (run_has_shape p) as H.
  destruct (run p) as [o t]. simpl in *.
  assert (Hq : ∀ ident, token p ident →
                        Forall (λ a, truthy a = true) (lr_cmd ident)).
  { intros ident [_ Ht]. by repeat constructor. }
  destruct H as [msg Hi | ident f Hv Ht | ident e Hv Ht | ident Hv Ht
                | ident Hv Ht Hs | ident r Hv Ht Hr
                | ident c o Hv Ht Hs Hc Ho | ident c o Hv Ht Hs Hc Ho];
    repeat match goal with
           | |- Forall _ (_ :: _) => apply Forall_cons_2
           | |- Forall _ [] => apply Forall_nil
           end;
    eauto using valid_rr_cmd_args, valid_ar_cmd_args.
Qed.

(** X15: the result a run reports echoes the repo and state parameters;
    it says changed=false (and repeats the name) only when the query was
    the only command, and changed=true only after a removal or an add
    was executed. *)
Theorem exit_report (p : params) (e : exit_args) (t : list cmd) :
  run p = (Exit e, t) →
  e_repo e = p_repo p
  ∧ e_state e = p_state p
  ∧ ((changed e = false ∧ e_name e = Some (p_name p) ∧ length t = 1)
     ∨ (changed e = true ∧ e_name e = None ∧ 2 ≤ length t)).
Proof.
  intros Hrun. pose proof (run_has_shape p) as H. rewrite Hrun in H.
  simpl in H.
  inversion H as [msg Hi | ident f Hv Ht | ident x Hv Ht | ident Hv Ht
                 | ident Hv Ht Hs | ident r Hv Ht Hr
                 | ident c o Hv Ht Hs Hc Ho | ident c o Hv Ht Hs Hc Ho];
    subst; simpl.
  - repeat split. left. done.
  - repeat split. right. repeat split; simpl; lia.
  - destruct Ho as [[= ->] | [msg Hm]]; [| done].
    repeat split. right. repeat split; simpl; lia.
  - destruct Ho as [[= ->] | [msg Hm]]; [| done].
    repeat split. right. repeat split; simpl; lia.
Qed.

(** X16: [fail_if_rc_is_null] executes no command; it returns when the
    exit code is 0 and otherwise fails with stderr, or with stdout when
    stderr is empty.  It is the check [modify_repo] makes on the add
    command's response. *)
Theorem modify_repo_checks_rc (repo alias d : option string)
    (g f remove_first : bool) (code : Z) (out err : string) (t : list cmd) :
  (fail_if_rc_is_null code out err t).2 = t
  ∧ (code = 0%Z → fail_if_rc_is_null code out err t = (Ret tt, t))
  ∧ (code ≠ 0%Z →
     fail_if_rc_is_null code out err t
     = (Fail (fail_json (Msg (if truthy (Some err) then err else out))
                        None None None), t))
  ∧ modify_repo repo alias d g f remove_first t
    = match ar_cmd repo alias d g f with
      | None => raise AttributeError t
      | Some c =>
          (skip (if remove_first then remove_repo repo alias else ret false);;
           r <- run_command c false;;
           skip fail_if_rc_is_null (rc r) (stdout r) (stderr r);;
           ret true) t
      end.
Proof.
  unfold fail_if_rc_is_null. repeat split.
  - destruct (code =? 0)%Z; [done |]. by destruct (truthy (Some err)).
  - by intros ->.
  - intros H. destruct (Z.eqb_spec code 0); [done |]. simpl.
    by destruct err.
  - unfold modify_repo. destruct (ar_cmd repo alias d g f) as [c |]; [| done].
    unfold bind.
    destruct ((if remove_first then remove_repo repo alias else ret false) t)
      as [[b | | |] t']; try done.
    unfold run_command; simpl.
    destruct (rc (zypper t' c) =? 0)%Z; [done |]. simpl.
    by destruct (stderr (zypper t' c)).
Qed.

(** ** Options of an existing repository *)

Lemma add_outcome_Exit p r e :
  finish p (add_outcome r) = Exit e → changed e = true.
Proof.
  unfold add_outcome. destruct (rc r =? 0)%Z; [| done].
  simpl. by intros [= <-].
Qed.

Lemma modify_repo_Exit p repo alias d g f rf t e :
  finish p (modify_repo repo alias d g f rf t).1 = Exit e → changed e = true.
Proof.
  destruct (ar_cmd repo alias d g f) as [c |] eqn:Hc.
  - destruct rf.
    + destruct (Z.eq_dec (rc (zypper t (rr_cmd repo alias))) 0%Z) as [E | E].
      * rewrite (modify_repo_replace _ _ _ _ _ _ _ Hc E).
        apply add_outcome_Exit.
      * by rewrite (modify_repo_replace_fail _ _ _ _ _ _ _ Hc E).
    + rewrite (modify_repo_add _ _ _ _ _ _ _ Hc). apply add_outcome_Exit.
  - unfold modify_repo. by rewrite Hc.
Qed.

Lemma remove_repo_Exit p repo alias t e :
  finish p (remove_repo repo alias t).1 = Exit e → changed e = true.
Proof.
  destruct (Z.eq_dec (rc (zypper t (rr_cmd repo alias))) 0%Z) as [E | E].
  - rewrite (remove_repo_ok _ _ _ E). simpl. by intros [= <-].
  - by rewrite (remove_repo_fail _ _ _ E).
Qed.

Lemma reconcile_unchanged_inv p e0 m0 t1 e t :
  reconcile p (e0, m0) t1 = (Exit e, t) →
  changed e = false →
  t = t1 ∧ e = exit_same p
  ∧ ((p_state p = present ∧ e0 && negb m0 = true)
     ∨ (p_state p = absent ∧ e0 = false)).
Proof.
  intros H Hc. destruct (p_state p) eqn:Hs.
  - destruct (e0 && negb m0) eqn:Hem.
    + apply andb_true_iff in Hem as [-> Hm]. apply negb_true_iff in Hm as ->.
      rewrite (reconcile_unchanged p _ Hs) in H. injection H as <- <-.
      unfold exit_same. rewrite Hs. eauto.
    + rewrite (reconcile_present p e0 m0 _ Hs Hem) in H.
      injection H as H _. apply modify_repo_Exit in H. congruence.
  - destruct e0.
    + rewrite (reconcile_absent_found p m0 _ Hs) in H.
      injection H as H _. apply remove_repo_Exit in H. congruence.
    + rewrite (reconcile_absent_missing p m0 _ Hs) in H.
      injection H as <- <-. eauto.
Qed.

(** X17: description, disable_gpg_check and refresh are never compared
    with the existing repository: a run that reports changed=false
    reports the same, after the same single command, for any other
    values of these three parameters. *)
Theorem options_are_not_reconciled (p : params) (d : option string)
    (g f : bool) (e : exit_args) (t : list cmd) :
  run p = (Exit e, t) →
  changed e = false →
  run (with_options p d g f) = (Exit e, t).
Proof.
  unfold run. rewrite !main_unfold.
  change (check_params (with_options p d g f)) with (check_params p).
  change (main_kwargs (with_options p d g f)) with (main_kwargs p).
  unfold bind.
  destruct (check_params p []) as [[u | x | x | x] t0]; try done.
  destruct (repo_exists (main_kwargs p) t0) as [[[e0 m0] | x | x | x] t1];
    try done.
  intros H Hc.
  destruct (reconcile_unchanged_inv _ _ _ _ _ _ H Hc)
    as (-> & -> & [[Hs Hem] | [Hs ->]]).
  - apply andb_true_iff in Hem as [-> Hm]. apply negb_true_iff in Hm as ->.
    rewrite (reconcile_unchanged (with_options p d g f) _ Hs).
    unfold exit_same. by rewrite Hs.
  - by rewrite (reconcile_absent_missing (with_options p d g f) m0 _ Hs).
Qed.

End Host.

(** ** Concrete runs *)

(** C1: with both keywords given, the query is scoped to the name and
    not to the alias. *)
Lemma name_precedes_alias :
  truthy (kwargs_get both_given "alias") = true
  ∧ truthy (kwargs_get both_given "name") = true
  ∧ repo_ident both_given = Some "NVIDIA Driver"
  ∧ (repo_exists (const_zypper 0) (const_parse [nvidia_elem]) both_given []).2
    = [lr_cmd "NVIDIA Driver"]
  ∧ lr_cmd "NVIDIA Driver" ≠ lr_cmd "nvidia".
Proof. vm_compute. repeat split; discriminate. Qed.

(** C3: changing the URL of an existing repository takes three
    commands: the query, the removal and the add. *)
Lemma modify_runs_three_commands :
  (run (const_zypper 0) (const_parse [nvidia_elem]) nvidia_moved).2
  = [ lr_cmd "nvidia-repo";
      [zypper_bin; Some "rr"; Some "nvidia-repo"];
      [zypper_bin; Some "ar"; Some "--check"; Some "-t"; Some "plaindir";
       Some "--refresh"; Some "ftp://download.nvidia.com/opensuse/12.3";
       Some "nvidia-repo"] ]
  ∧ ¬ length (run (const_zypper 0) (const_parse [nvidia_elem])
                  nvidia_moved).2 ≤ 2.
Proof. vm_compute. split; [reflexivity | lia]. Qed.

(** A repo file given without a name is removed and added again on a run
    that finds it. *)
Example repo_file_is_added_again :
  run (const_zypper 0) (const_parse [python_elem]) python_present
  = (Exit {| changed := true; e_repo := Some python_repo_file;
             e_state := present; e_name := None |},
     [ lr_cmd python_repo_file;
       [zypper_bin; Some "rr"; Some python_repo_file];
       [zypper_bin; Some "ar"; Some "--check"; Some "-t"; Some "plaindir";
        Some "--refresh"; Some python_repo_file] ]).
Proof. vm_compute. reflexivity. Qed.

Lemma repo_ident_priority_witness :
  repo_ident both_given = Some "NVIDIA Driver".
Proof.
  pose proof (repo_ident_priority (const_zypper 0) (const_parse [nvidia_elem])
                both_given []) as H.
  destruct H as [H _]. apply H. reflexivity.
Defined.

Lemma matching_entry_is_unchanged_witness :
  run (const_zypper 0) (const_parse [nvidia_elem]) nvidia_present
  = (Exit {| changed := false;
             e_repo := Some "ftp://download.nvidia.com/opensuse/12.2";
             e_state := present; e_name := Some (Some "nvidia-repo") |},
     [lr_cmd "nvidia-repo"]).
Proof.
  refine (proj2 (matching_entry_is_unchanged
                   (const_zypper 0) (const_parse [nvidia_elem])
                   (main_kwargs nvidia_present) "nvidia-repo" nvidia_entry []
                   _ _ _ _)
                nvidia_present eq_refl eq_refl eq_refl eq_refl).
  - reflexivity.
  - reflexivity.
  - split; reflexivity.
  - apply repo_changes_false_iff. vm_compute. reflexivity.
Defined.

Lemma ambiguous_identity_is_fatal_witness :
  repo_exists (const_zypper 0) (const_parse [nvidia_elem; nvidia_elem])
              (main_kwargs nvidia_present) []
  = (Fail (fail_json (MsgMoreThanOne (Some "nvidia-repo")
                                     [nvidia_entry; nvidia_entry])
                     None None None),
     [lr_cmd "nvidia-repo"]).
Proof.
  refine (proj1 (ambiguous_identity_is_fatal
                   (const_zypper 0) (const_parse [nvidia_elem; nvidia_elem])
                   (main_kwargs nvidia_present) "nvidia-repo"
                   nvidia_entry nvidia_entry [] [] _ _ _)).
  - reflexivity.
  - reflexivity.
  - split; reflexivity.
Defined.



Lemma validation_precedes_commands_witness :
  ∃ msg, run (const_zypper 0) (const_parse [python_elem]) python_named
         = (Fail (fail_json (Msg msg) None None None), []).
Proof.
  apply (proj1 (validation_precedes_commands
                  (const_zypper 0) (const_parse [python_elem]) python_named)).
  right; right; left. exists python_repo_file.
  repeat split; reflexivity.
Defined.

Lemma remove_repo_strict_witness :
  remove_repo (const_zypper 1) (Some "ftp://download.nvidia.com/opensuse/12.2")
              (Some "nvidia-repo") []
  = (Fail (check_rc_failed [zypper_bin; Some "rr"; Some "nvidia-repo"]
                           {| rc := 1; stdout := "<stream/>"; stderr := "" |}),
     [[zypper_bin; Some "rr"; Some "nvidia-repo"]]).
Proof.
  pose proof (remove_repo_strict (const_zypper 1)
                (Some "ftp://download.nvidia.com/opensuse/12.2")
                (Some "nvidia-repo") []) as H.
  destruct H as (_ & _ & _ & H & _). apply H. simpl. lia.
Defined.

Lemma none_compared_as_empty_witness :
  repo_exists (const_zypper 0) (const_parse [python_elem])
              (main_kwargs python_present) []
  = (Ret (true, true), [lr_cmd python_repo_file]).
Proof.
  refine (proj2 (proj2 (none_compared_as_empty
                          (const_zypper 0) (const_parse [python_elem])
                          (main_kwargs python_present) python_repo_file
                          "alias" "devel_languages_python" python_entry []
                          _ _ _ _ _ _))).
  - reflexivity.
  - reflexivity.
  - reflexivity.
  - split; reflexivity.
  - reflexivity.
  - reflexivity.
Defined.

(** ** Further concrete runs *)

Lemma parsed_entry_keys_witness :
  dom nvidia_entry = list_to_set (REPO_OPTS ++ ["url"])
  ∧ (∀ o, o ∈ REPO_OPTS →
          nvidia_entry !! o = Some (default "" (attrs nvidia_elem !! o)))
  ∧ (∃ data, head (urls nvidia_elem) = Some (Some data)
             ∧ nvidia_entry !! "url" = Some data).
Proof.
  apply (parsed_entry_keys nvidia_elem nvidia_entry). reflexivity.
Defined.

Lemma repo_changes_only_compared_keys_witness :
  repo_changes nvidia_entry (main_kwargs nvidia_present)
  = repo_changes nvidia_entry_unchecked (main_kwargs nvidia_present).
Proof.
  apply (repo_changes_only_compared_keys
           nvidia_entry nvidia_entry_unchecked (main_kwargs nvidia_present)).
  apply map_Forall_to_list. vm_compute. repeat constructor.
Defined.

Lemma repo_exists_result_witness :
  ∃ ident realrepo,
    repo_ident (main_kwargs nvidia_present) = Some ident
    ∧ query_returns (const_zypper 0) (const_parse [nvidia_elem]) []
                    ident [realrepo]
    ∧ false = repo_changes realrepo (main_kwargs nvidia_present).
Proof.
  refine (proj1 (proj2 (repo_exists_result
                          (const_zypper 0) (const_parse [nvidia_elem])
                          (main_kwargs nvidia_present) [] true false _))
                eq_refl).
  reflexivity.
Defined.

Lemma absent_missing_is_unchanged_witness :
  run (const_zypper 6) (const_parse []) nvidia_absent
  = (Exit (exit_same nvidia_absent), [lr_cmd "nvidia-repo"]).
Proof.
  apply (absent_missing_is_unchanged (const_zypper 6) (const_parse [])
           nvidia_absent "nvidia-repo").
  - reflexivity.
  - reflexivity.
  - split; reflexivity.
  - right. reflexivity.
Defined.

Lemma absent_found_is_removed_witness :
  run (const_zypper 0) (const_parse [nvidia_elem]) nvidia_absent
  = (Exit (exit_changed nvidia_absent),
     [lr_cmd "nvidia-repo"; [zypper_bin; Some "rr"; Some "nvidia-repo"]]).
Proof.
  refine (proj1 (absent_found_is_removed
                   (const_zypper 0) (const_parse [nvidia_elem])
                   nvidia_absent "nvidia-repo" nvidia_entry _ _ _ _) _).
  - reflexivity.
  - reflexivity.
  - split; reflexivity.
  - split; reflexivity.
  - reflexivity.
Defined.

Lemma present_missing_is_added_witness :
  ∃ c, run (verb_zypper 6 0 0) (const_parse []) nvidia_present
       = (Exit (exit_changed nvidia_present), [lr_cmd "nvidia-repo"; c]).
Proof.
  destruct (present_missing_is_added
              (verb_zypper 6 0 0) (const_parse [])
              nvidia_present "nvidia-repo")
    as (c & Hc & H0 & _).
  - reflexivity.
  - reflexivity.
  - split; reflexivity.
  - right. reflexivity.
  - exists c. apply H0. vm_compute in Hc. injection Hc as <-. reflexivity.
Defined.

Lemma present_differing_is_replaced_witness :
  ∃ c, run (verb_zypper 0 0 1) (const_parse [nvidia_elem]) nvidia_moved
       = (Fail (fail_json (Msg "<stream/>") None None None),
          [lr_cmd "nvidia-repo";
           [zypper_bin; Some "rr"; Some "nvidia-repo"]; c]).
Proof.
  destruct (present_differing_is_replaced
              (verb_zypper 0 0 1) (const_parse [nvidia_elem])
              nvidia_moved "nvidia-repo" nvidia_entry)
    as (c & Hc & _ & _ & H1).
  - reflexivity.
  - reflexivity.
  - split; reflexivity.
  - split; reflexivity.
  - reflexivity.
  - exists c. vm_compute in Hc. injection Hc as <-.
    apply H1; [reflexivity | vm_compute; lia].
Defined.

Lemma query_error_stops_run_witness :
  run (const_zypper 4) (const_parse []) nvidia_present
  = (Fail (query_failure "nvidia-repo"
             {| rc := 4; stdout := "<stream/>"; stderr := "" |}),
     [lr_cmd "nvidia-repo"]).
Proof.
  refine (proj1 (query_error_stops_run (const_zypper 4) (const_parse [])
                   nvidia_present "nvidia-repo" _ _) _ _).
  - reflexivity.
  - split; reflexivity.
  - vm_compute. lia.
  - vm_compute. lia.
Defined.

Lemma absent_never_adds_witness :
  Forall (λ c : cmd, c !! 1 ≠ Some (Some "ar"))
         (run (const_zypper 0) (const_parse [nvidia_elem]) nvidia_absent).2.
Proof.
  apply (absent_never_adds (const_zypper 0) (const_parse [nvidia_elem])
           nvidia_absent).
  reflexivity.
Defined.

Lemma exit_report_witness :
  e_repo (exit_same nvidia_present) = p_repo nvidia_present
  ∧ e_state (exit_same nvidia_present) = p_state nvidia_present
  ∧ ((changed (exit_same nvidia_present) = false
      ∧ e_name (exit_same nvidia_present) = Some (p_name nvidia_present)
      ∧ length [lr_cmd "nvidia-repo"] = 1)
     ∨ (changed (exit_same nvidia_present) = true
        ∧ e_name (exit_same nvidia_present) = None
        ∧ 2 ≤ length [lr_cmd "nvidia-repo"])).
Proof.
  apply (exit_report (const_zypper 0) (const_parse [nvidia_elem])
           nvidia_present).
  vm_compute. reflexivity.
Defined.

Lemma options_are_not_reconciled_witness :
  run (const_zypper 0) (const_parse [nvidia_elem])
      (with_options nvidia_present (Some "NVIDIA drivers") true false)
  = (Exit (exit_same nvidia_present), [lr_cmd "nvidia-repo"]).
Proof.
  apply (options_are_not_reconciled
           (const_zypper 0) (const_parse [nvidia_elem]) nvidia_present).
  - vm_compute. reflexivity.
  - reflexivity.
Defined.
